(** * Chekaru Voice Generator: voice catalog, text splitting and the
      generate / preview workflows

    A shallow embedding of [chekaru_voice_generator.py].  Python values
    are modelled as follows.

    - [str] is a list of characters (code points below 256).
    - A call that may raise returns a [result]: [Ok v] or [Raise e].
    - What [resp.json()] can return is a [json] value.
    - Every voice entry is a dict with the two keys ["id"] and ["name"];
      it is the record [voice].
    - The widgets, the dialogs, the model and the file system are
      external: the calls made on them are recorded in a trace of
      [event]s, their answers are parameters. *)

From Stdlib Require Import ZArith Ascii String List Lia.
From stdpp Require Import base option list strings gmap.

Set Default Proof Using "Type".
Local Open Scope Z_scope.

(** ** Python values *)

Abbreviation str := (list ascii).

(** A string literal of the source. *)
Definition lit (s : string) : str := list_ascii_of_string s.
Arguments lit : simpl never.

Inductive exn :=
  | KeyError
  | TypeError
  | IndexError
  | ValueError (msg : str)
  | RequestException (msg : str)
  | JSONDecodeError
  | RuntimeError (msg : str).

Inductive result (A : Type) :=
  | Ok (a : A)
  | Raise (e : exn).
Arguments Ok {A} a.
Arguments Raise {A} e.

#[global] Instance result_ret : MRet result := λ A a, Ok a.
#[global] Instance result_bind : MBind result := λ A B f m,
  match m with Ok a => f a | Raise e => Raise e end.
#[global] Instance result_fmap : FMap result := λ A B f m,
  match m with Ok a => Ok (f a) | Raise e => Raise e end.

(** [[f(x) for x in l]]: the elements are computed in order and the first
    exception ends the comprehension. *)
Fixpoint comprehension {A B} (f : A → result B) (l : list A) : result (list B) :=
  match l with
  | [] => Ok []
  | x :: l' => y ← f x; ys ← comprehension f l'; Ok (y :: ys)
  end.

(** [[x for x in l if p(x)]] with a condition that may raise. *)
Fixpoint comprehension_if {A} (p : A → result bool) (l : list A) : result (list A) :=
  match l with
  | [] => Ok []
  | x :: l' =>
      b ← p x; ys ← comprehension_if p l'; Ok (if b : bool then x :: ys else ys)
  end.

(** The values [resp.json()] builds.  A number is never inspected by this
    program (it is only hashed and compared with strings), so integers
    stand for all numbers.  A dict is the list of its items, the first
    binding of a key being the dict's. *)
#[warnings="-register-all"]
Inductive json :=
  | JNull
  | JBool (b : bool)
  | JNum (z : Z)
  | JStr (s : str)
  | JArr (l : list json)
  | JObj (items : list (str * json)).

#[global] Instance json_eq_dec : EqDecision json.
Proof.
  refine (fix go (x y : json) {struct x} : Decision (x = y) :=
    match x, y with
    | JNull, JNull => left eq_refl
    | JBool a, JBool b => cast_if (decide (a = b))
    | JNum a, JNum b => cast_if (decide (a = b))
    | JStr a, JStr b => cast_if (decide (a = b))
    | JArr l, JArr l' => cast_if (@decide (l = l') (@list_eq_dec _ go l l'))
    | JObj l, JObj l' =>
        cast_if (@decide (l = l') (@list_eq_dec _ (@prod_eq_dec _ _ _ go) l l'))
    | _, _ => right _
    end); abstract congruence.
Defined.

Fixpoint dict_get (key : str) (items : list (str * json)) : option json :=
  match items with
  | [] => None
  | (k, v) :: rest => if decide (k = key) then Some v else dict_get key rest
  end.

(** [v[key]] for a string [key]. *)
Definition getitem (v : json) (key : str) : result json :=
  match v with
  | JObj items =>
      match dict_get key items with
      | Some x => Ok x
      | None => Raise KeyError
      end
  | _ => Raise TypeError
  end.

(** [for v in data]: a list yields its elements, a dict its keys, a string
    its characters; nothing else is iterable. *)
Definition iter (data : json) : result (list json) :=
  match data with
  | JArr l => Ok l
  | JObj items => Ok ((λ kv, JStr kv.1) <$> items)
  | JStr s => Ok ((λ c, JStr [c]) <$> s)
  | _ => Raise TypeError
  end.

(** The keys of a Python set.  [True == 1] and [False == 0], and they hash
    alike; lists and dicts are unhashable. *)
Inductive hashable :=
  | HNone
  | HNum (z : Z)
  | HStr (s : str).

#[global] Instance hashable_eq_dec : EqDecision hashable.
Proof. solve_decision. Defined.

#[global] Instance hashable_countable : Countable hashable.
Proof.
  refine (inj_countable'
    (λ h, match h with
          | HNone => inl ()
          | HNum z => inr (inl z)
          | HStr s => inr (inr s)
          end)
    (λ x, match x with
          | inl _ => HNone
          | inr (inl z) => HNum z
          | inr (inr s) => HStr s
          end) _).
  by intros [].
Defined.

Definition py_hash (v : json) : result hashable :=
  match v with
  | JNull => Ok HNone
  | JBool b => Ok (HNum (if b then 1 else 0))
  | JNum z => Ok (HNum z)
  | JStr s => Ok (HStr s)
  | JArr _ | JObj _ => Raise TypeError
  end.

(** [v == s] for a string [s]. *)
Definition eq_str (v : json) (s : str) : bool :=
  match v with
  | JStr t => bool_decide (t = s)
  | _ => false
  end.

(** ** The voice catalog *)

Record voice := Voice { voice_id : json; voice_name : json }.

Definition local_voice (i n : string) : voice := Voice (JStr (lit i)) (JStr (lit n)).

Definition LOCAL_VOICE_OPTIONS : list voice :=
  [ local_voice "v2/en_speaker_0" "Deep Male (English)";
    local_voice "v2/en_speaker_1" "Warm Female (English)";
    local_voice "v2/en_speaker_2" "Young Male (English)";
    local_voice "v2/en_speaker_3" "Bright Female (English)";
    local_voice "v2/en_speaker_4" "Calm Narrator (English)";
    local_voice "v2/en_speaker_5" "Energetic Performer (English)";
    local_voice "v2/en_speaker_6" "Cinematic Deep Tone (English)";
    local_voice "v2/en_speaker_7" "Soft Female (English)" ].

(** What [requests.get(url, timeout=10)] answers: it raises (no network,
    timeout), or there is a response with a status code whose [json()]
    raises or returns the parsed payload. *)
Record response := Response { status_code : Z; json_body : result json }.

(** Lines printed on the console. *)
Inductive console :=
  | PrintUnable (e : exn)
  | PrintFetched (n : nat)
  | PrintOffline.

Definition fetch_attempt (get : result response) : result (option (list voice)) :=
  resp ← get;
  if decide (status_code resp = 200) then
    data ← json_body resp;
    items ← iter data;
    voices ← comprehension
      (λ v, i ← getitem v (lit "id"); n ← getitem v (lit "name"); Ok (Voice i n))
      items;
    Ok (Some voices)
  else Ok None.

Definition fetch_community_voices (get : result response) : list console * list voice :=
  match fetch_attempt get with
  | Ok (Some voices) => ([], voices)
  | Ok None => ([], [])
  | Raise e => ([PrintUnable e], [])
  end.

(** Lines 72-73: the id set of the local list, then the local list followed
    by the remote entries whose id is not in that set. *)
Definition merge_voices (local remote_voices : list voice) : result (list voice) :=
  keys ← comprehension (λ v, py_hash (voice_id v)) local;
  let ids : gset hashable := list_to_set keys in
  rest ← comprehension_if
    (λ v, k ← py_hash (voice_id v); Ok (bool_decide (k ∉ ids))) remote_voices;
  Ok (local ++ rest).

Definition get_voice_catalog_from (local : list voice) (get : result response)
  : list console * result (list voice) :=
  let '(out, remote_voices) := fetch_community_voices get in
  match remote_voices with
  | _ :: _ =>
      (out ++ [PrintFetched (length remote_voices)], merge_voices local remote_voices)
  | [] => (out ++ [PrintOffline], Ok local)
  end.

Definition get_voice_catalog : result response → list console * result (list voice) :=
  get_voice_catalog_from LOCAL_VOICE_OPTIONS.

(** ** Strings *)

Definition ord (c : ascii) : N := N_of_ascii c.

Definition in_range (lo hi : N) (c : ascii) : bool :=
  ((lo <=? ord c) && (ord c <=? hi))%N.

(** [c.isspace()] on the code points below 256. *)
Definition isspace (c : ascii) : bool :=
  in_range 9 13 c || in_range 28 32 c || in_range 133 133 c || in_range 160 160 c.

Fixpoint lstrip (s : str) : str :=
  match s with
  | [] => []
  | c :: s' => if isspace c then lstrip s' else s
  end.

Definition rstrip (s : str) : str := rev (lstrip (rev s)).

(** [s.strip()] *)
Definition strip (s : str) : str := rstrip (lstrip s).

(** [sep.join(l)] *)
Fixpoint join (sep : str) (l : list str) : str :=
  match l with
  | [] => []
  | [x] => x
  | x :: l' => x ++ sep ++ join sep l'
  end.

(** [s.rfind(c, 0, stop)]: the highest index below [stop] that holds [c],
    [None] where Python answers -1. *)
Fixpoint rfind_from (c : ascii) (i : nat) (s : str) (stop : nat) : option nat :=
  match s, stop with
  | [], _ | _, O => None
  | d :: s', S stop' =>
      match rfind_from c (S i) s' stop' with
      | Some j => Some j
      | None => if decide (d = c) then Some i else None
      end
  end.

Definition rfind (c : ascii) (s : str) (stop : nat) : option nat := rfind_from c 0 s stop.

(** [s.split()]: the maximal runs of characters that are not [sep]
    characters; [cur] is the run being read, last character first. *)
Fixpoint split_runs (sep : ascii → bool) (cur : str) (s : str) : list str :=
  match s with
  | [] => match cur with [] => [] | _ => [rev cur] end
  | c :: s' =>
      if sep c
      then match cur with [] => split_runs sep [] s' | _ => rev cur :: split_runs sep [] s' end
      else split_runs sep (c :: cur) s'
  end.

(** ** textwrap (Python 3.11), for a [TextWrapper] with its default
    options: tabs expanded, whitespace replaced, long words broken,
    hyphens breakable, whitespace dropped, no indent, no line limit *)
Module textwrap.

Definition TAB : ascii := "009".
Definition LF : ascii := "010".
Definition VT : ascii := "011".
Definition FF : ascii := "012".
Definition CR : ascii := "013".
Definition SP : ascii := " ".
Definition HYPHEN : ascii := "-".

Definition _whitespace : str := [TAB; LF; VT; FF; CR; SP].

Definition whitespace (c : ascii) : bool := bool_decide (c ∈ _whitespace).

(** The classes [\d], [\w], [letter] (a [\w] that is no [\d]) and
    [word_punct] (a [\w] or one of seven punctuation marks, the double
    quote among them) of a str pattern. *)
Definition digit (c : ascii) : bool := in_range 48 57 c.

Definition word_char (c : ascii) : bool :=
  in_range 48 57 c || in_range 65 90 c || in_range 95 95 c || in_range 97 122 c
  || in_range 170 170 c || in_range 178 179 c || in_range 181 181 c
  || in_range 185 186 c || in_range 188 190 c || in_range 192 214 c
  || in_range 216 246 c || in_range 248 255 c.

Definition letter (c : ascii) : bool := word_char c && negb (digit c).

Definition word_punct (c : ascii) : bool :=
  word_char c
  || bool_decide (c ∈ ["!"; "034"; "'"; "&"; "."; ","; "?"]%char).

Definition hyphen (c : ascii) : bool := bool_decide (c = HYPHEN).

(** [text.expandtabs(tabsize)], [line_pos] being the column. *)
Fixpoint expandtabs_at (tabsize line_pos : nat) (text : str) : str :=
  match text with
  | [] => []
  | c :: text' =>
      if decide (c = TAB) then
        if (0 <? tabsize)%nat then
          let incr := (tabsize - line_pos mod tabsize)%nat in
          replicate incr SP ++ expandtabs_at tabsize (line_pos + incr) text'
        else expandtabs_at tabsize line_pos text'
      else
        c :: expandtabs_at tabsize
               (if decide (c = LF ∨ c = CR) then 0 else line_pos + 1)%nat text'
  end.

Definition expandtabs (tabsize : nat) (text : str) : str := expandtabs_at tabsize 0 text.

(** [text.translate(unicode_whitespace_trans)] *)
Definition translate (text : str) : str :=
  (λ c, if whitespace c then SP else c) <$> text.

Definition _munge_whitespace (text : str) : str := translate (expandtabs 8 text).

(** *** [wordsep_re]

    The pattern is a capture group of three alternatives, tried in
    order where the scan stands: a run of whitespace; a run of two or
    more hyphens after a [word_punct] and before a [\w]; a word, the
    shortest run of non-whitespace that is followed by one of: a hyphen
    between letters (which the match takes in), whitespace or the end,
    an em-dash.  [before] holds the characters left of the scan, nearest
    first: a look-behind reads them. *)

(** [(?= lt -? lt)] *)
Definition ahead_letters (rest : str) : bool :=
  match rest with
  | a :: b :: rest' =>
      letter a
      && ((hyphen b && match rest' with c :: _ => letter c | [] => false end)
          || letter b)
  | _ => false
  end.

Fixpoint skip_hyphens (rest : str) : nat * str :=
  match rest with
  | c :: rest' =>
      if hyphen c then let '(n, r) := skip_hyphens rest' in (S n, r) else (O, rest)
  | [] => (O, [])
  end.

(** [(?= -{2,} \w)] *)
Definition ahead_emdash (rest : str) : bool :=
  let '(n, r) := skip_hyphens rest in
  (2 <=? n)%nat && match r with c :: _ => word_char c | [] => false end.

(** [(?<= lt{2} -) | (?<= lt - lt -)], read just after the hyphen:
    [before] is what stands left of that hyphen. *)
Definition behind_hyphenated (before : str) : bool :=
  match before with
  | a :: b :: before' =>
      letter a
      && (letter b
          || (hyphen b && match before' with c :: _ => letter c | [] => false end))
  | _ => false
  end.

(** The third alternative.  [c] has been taken into the word, [before]
    stands left of [c] and [rest] right of it; the answer is the word
    and what follows it. *)
Fixpoint word (before : str) (c : ascii) (rest : str) : str * str :=
  match rest with
  | [] => ([c], [])
  | d :: rest' =>
      if hyphen d && behind_hyphenated (c :: before) && ahead_letters rest'
      then ([c; d], rest')
      else if whitespace d then ([c], rest)
      else if word_punct c && ahead_emdash rest then ([c], rest)
      else let '(w, r) := word (c :: before) d rest' in (c :: w, r)
  end.

Fixpoint whitespace_run (rest : str) : str * str :=
  match rest with
  | c :: rest' =>
      if whitespace c then let '(w, r) := whitespace_run rest' in (c :: w, r)
      else ([], rest)
  | [] => ([], [])
  end.

(** One match of the pattern at the scan position. *)
Definition wordsep_match (before : str) (c : ascii) (rest : str) : str * str :=
  if whitespace c then whitespace_run (c :: rest)
  else if match before with b :: _ => word_punct b | [] => false end
          && ahead_emdash (c :: rest)
  then let '(n, r) := skip_hyphens (c :: rest) in (replicate n HYPHEN, r)
  else word before c rest.

(** [wordsep_re.split(text)] without its empty strings: the pattern
    matches wherever the scan stands, so the pieces between the matches
    are all empty and the matches are what is left.  A match holds at
    least one character, so [length text] rounds are enough. *)
Fixpoint split_at (fuel : nat) (before : str) (text : str) : list str :=
  match fuel, text with
  | S fuel', c :: rest =>
      let '(chunk, text') := wordsep_match before c rest in
      chunk :: split_at fuel' (rev chunk ++ before) text'
  | _, _ => []
  end.

Definition _split (text : str) : list str :=
  filter (λ c, c ≠ []) (split_at (length text) [] text).

Definition _split_chunks (text : str) : list str := _split (_munge_whitespace text).

(** [chunk.strip() == ''] *)
Definition blank (chunk : str) : bool := bool_decide (strip chunk = []).

(** [_handle_long_word]: the chunk on top of the stack is too long for
    any line; its head goes to the current line, broken after its last
    hyphen where there is one with something else before it. *)
Definition _handle_long_word (chunk : str) (chunks cur_line : list str)
    (cur_len width : nat) : list str * list str :=
  let space_left := if (width <? 1)%nat then 1%nat else (width - cur_len)%nat in
  let end_ :=
    if (space_left <? length chunk)%nat then
      match rfind HYPHEN chunk space_left with
      | Some hyphen_ =>
          if (0 <? hyphen_)%nat
             && existsb (λ c, negb (hyphen c)) (take hyphen_ chunk)
          then S hyphen_ else space_left
      | None => space_left
      end
    else space_left in
  (drop end_ chunk :: chunks, cur_line ++ [take end_ chunk]).

(** The inner loop: chunks go to the current line while they fit. *)
Fixpoint fill_line (width : nat) (chunks cur_line : list str) (cur_len : nat)
  : list str * list str * nat :=
  match chunks with
  | chunk :: chunks' =>
      if (cur_len + length chunk <=? width)%nat
      then fill_line width chunks' (cur_line ++ [chunk]) (cur_len + length chunk)
      else (chunks, cur_line, cur_len)
  | [] => ([], cur_line, cur_len)
  end.

(** [del cur_line[-1]] when the last chunk of the line is blank. *)
Definition drop_trailing (cur_line : list str) : list str :=
  match last cur_line with
  | Some chunk => if blank chunk then removelast cur_line else cur_line
  | None => cur_line
  end.

(** One round of the outer loop of [_wrap_chunks].  [chunks] is the stack,
    its top first. *)
Definition wrap_line (width : nat) (chunks lines : list str) : list str * list str :=
  let chunks :=
    match chunks with
    | chunk :: chunks' =>
        if blank chunk && bool_decide (lines ≠ []) then chunks' else chunks
    | [] => chunks
    end in
  let '(chunks, cur_line, cur_len) := fill_line width chunks [] 0 in
  let '(chunks, cur_line) :=
    match chunks with
    | chunk :: chunks' =>
        if (width <? length chunk)%nat
        then _handle_long_word chunk chunks' cur_line cur_len width
        else (chunks, cur_line)
    | [] => (chunks, cur_line)
    end in
  let cur_line := drop_trailing cur_line in
  (chunks, match cur_line with [] => lines | _ => lines ++ [concat cur_line] end).

Fixpoint wrap_lines (fuel width : nat) (chunks lines : list str) : list str :=
  match fuel, chunks with
  | S fuel', _ :: _ =>
      let '(chunks', lines') := wrap_line width chunks lines in
      wrap_lines fuel' width chunks' lines'
  | _, _ => lines
  end.

(** [_wrap_chunks].  Every round takes a chunk or a character off the
    stack, so the rounds are bounded by the chunks plus their
    characters. *)
Definition _wrap_chunks (width : nat) (chunks : list str) : result (list str) :=
  if (width <=? 0)%nat then Raise (ValueError (lit "invalid width (must be > 0)"))
  else Ok (wrap_lines (length chunks + length (concat chunks)) width chunks []).

Definition wrap (text : str) (width : nat) : result (list str) :=
  _wrap_chunks width (_split_chunks text).

End textwrap.

(** ** The main window

    The text box, the combobox, the trace of the calls made on the
    toolkit, the model and the file system, and the files on disk make up
    the [world].  A callback is a function of the world that answers the
    new world and [Ok] or the exception that leaves the callback.  The
    worker of a callback runs on a thread of its own; it is run here to
    its end as soon as the thread is started. *)
Section main_ui.

Context {sample : Type}.

(** The model, the save dialog, the disk and the audio device, as they
    answer. [asksaveasfilename] is empty when the dialog is cancelled. *)
Variable SAMPLE_RATE : Z.
Variable generate_audio : str → json → result (list sample).
Variable asksaveasfilename : str.
Variable write_error : str → option exn.
Variable play_error : option exn.

Inductive status :=
  | Idle
  | Generating
  | Processing (i n : nat)
  | Saved (filename : str)
  | Canceled
  | GenerationError
  | Previewing (name : str)
  | PreviewFinished (name : str)
  | PreviewError.

Inductive event :=
  | showwarning (title message : str)
  | showerror (title : str) (e : exn)
  | progress_pack
  | progress_start
  | progress_stop
  | progress_pack_forget
  | status_config (text : status) (fg : str)
  | update_idletasks
  | generate_audio_call (text : str) (history_prompt : json)
  | asksaveasfilename_call
  | write_call (filename : str) (rate : Z) (data : list sample)
  | play_call (rate : Z) (data : list sample)
  | thread_start.

Record world := World {
  text_box : str;
  voice_choice : str;
  trace : list event;
  files : gmap str (Z * list sample)
}.

Definition io (A : Type) : Type := world → world * result A.

#[local] Instance io_ret : MRet io := λ A a w, (w, Ok a).
#[local] Instance io_bind : MBind io := λ A B f m w,
  match m w with
  | (w', Ok a) => f a w'
  | (w', Raise e) => (w', Raise e)
  end.

Definition lift {A} (r : result A) : io A := λ w, (w, r).

Definition emit (e : event) : io unit := λ w,
  (World (text_box w) (voice_choice w) (trace w ++ [e]) (files w), Ok ()).

Definition try_except {A} (body : io A) (handler : exn → io A) : io A := λ w,
  match body w with
  | (w', Ok a) => (w', Ok a)
  | (w', Raise e) => handler e w'
  end.

Definition try_finally {A} (body : io A) (cleanup : io unit) : io A := λ w,
  let '(w', r) := body w in
  match cleanup w' with
  | (w'', Ok _) => (w'', r)
  | (w'', Raise e) => (w'', Raise e)
  end.

(** [generate_audio(text, history_prompt=voice_model)] *)
Definition call_generate_audio (text : str) (voice_model : json) : io (list sample) :=
  emit (generate_audio_call text voice_model);; lift (generate_audio text voice_model).

(** [write(filename, rate, data)]: the file holds the data afterwards,
    whatever it held before, unless the write raises. *)
Definition write (filename : str) (rate : Z) (data : list sample) : io unit :=
  emit (write_call filename rate data);;
  match write_error filename with
  | Some e => lift (Raise e)
  | None => λ w,
      (World (text_box w) (voice_choice w) (trace w)
         (<[filename := (rate, data)]> (files w)), Ok ())
  end.

(** [sa.WaveObject.from_wave_file(filename)] *)
Definition from_wave_file (filename : str) : io (Z * list sample) := λ w,
  match files w !! filename with
  | Some wave => (w, Ok wave)
  | None => (w, Raise (RuntimeError (lit "No such file")))
  end.

(** [wave_obj.play().wait_done()] *)
Definition play (wave_obj : Z * list sample) : io unit :=
  emit (play_call wave_obj.1 wave_obj.2);;
  match play_error with
  | Some e => lift (Raise e)
  | None => mret ()
  end.

(** [np.concatenate(arrays)] *)
Definition np_concatenate (arrays : list (list sample)) : result (list sample) :=
  match arrays with
  | [] => Raise (ValueError (lit "need at least one array to concatenate"))
  | _ => Ok (concat arrays)
  end.

(** [voice_catalog[0]] *)
Definition first_entry (voice_catalog : list voice) : result voice :=
  match voice_catalog with
  | v :: _ => Ok v
  | [] => Raise IndexError
  end.

(** [next((v for v in l if p(v)), default)] *)
Definition next (p : voice → bool) (l : list voice) (default : voice) : voice :=
  match List.find p l with
  | Some v => v
  | None => default
  end.

(** The [for i, chunk in enumerate(chunks)] loop of [worker]; [n] is
    [len(chunks)] and [i] the index of the next chunk. *)
Fixpoint synthesize (n i : nat) (chunks : list str) (voice_model : json)
    (combined_audio : list (list sample)) : io (list (list sample)) :=
  match chunks with
  | [] => mret combined_audio
  | chunk :: chunks' =>
      emit (status_config (Processing (S i) n) (lit "orange"));;
      emit update_idletasks;;
      audio_array ← call_generate_audio chunk voice_model;
      synthesize n (S i) chunks' voice_model (combined_audio ++ [audio_array])
  end.

Definition worker (text_prompt : str) (voice_model : json) : io unit :=
  try_finally
    (try_except
       (emit progress_pack;;
        emit progress_start;;
        emit (status_config Generating (lit "orange"));;
        chunks ← lift (textwrap.wrap text_prompt 250);
        combined_audio ← synthesize (length chunks) 0 chunks voice_model [];
        final_audio ← lift (np_concatenate combined_audio);
        emit asksaveasfilename_call;;
        let filename := asksaveasfilename in
        match filename with
        | _ :: _ =>
            write filename SAMPLE_RATE final_audio;;
            emit (status_config (Saved filename) (lit "green"))
        | [] => emit (status_config Canceled (lit "gray"))
        end)
       (λ e,
          emit (showerror (lit "Error") e);;
          emit (status_config GenerationError (lit "red"))))
    (emit progress_stop;; emit progress_pack_forget).

Definition generate_voice (voice_catalog : list voice) : io unit := λ w,
  let text_prompt := strip (text_box w) in
  match text_prompt with
  | [] =>
      emit (showwarning (lit "Missing text") (lit "Please enter text to generate.")) w
  | _ :: _ =>
      let selected_name := voice_choice w in
      (default ← lift (first_entry voice_catalog);
       let voice_entry :=
         next (λ v, eq_str (voice_name v) selected_name) voice_catalog default in
       let voice_model := voice_id voice_entry in
       emit thread_start;;
       worker text_prompt voice_model) w
  end.

Definition worker_preview (selected_name : str) (voice_model : json) : io unit :=
  try_finally
    (try_except
       (emit progress_pack;;
        emit progress_start;;
        emit (status_config (Previewing selected_name) (lit "orange"));;
        let sample_text := lit "Hello, this is a quick voice preview." in
        audio_array ← call_generate_audio sample_text voice_model;
        let temp_file := lit "preview_sample.wav" in
        write temp_file SAMPLE_RATE audio_array;;
        wave_obj ← from_wave_file temp_file;
        play wave_obj;;
        emit (status_config (PreviewFinished selected_name) (lit "green")))
       (λ e,
          emit (showerror (lit "Error") e);;
          emit (status_config PreviewError (lit "red"))))
    (emit progress_stop;; emit progress_pack_forget).

Definition preview_voice (voice_catalog : list voice) : io unit := λ w,
  let selected_name := voice_choice w in
  (default ← lift (first_entry voice_catalog);
   let voice_entry :=
     next (λ v, eq_str (voice_name v) selected_name) voice_catalog default in
   let voice_model := voice_id voice_entry in
   emit thread_start;;
   worker_preview selected_name voice_model) w.

(** The synthesis calls of a trace, in order. *)
Definition synthesis_calls (t : list event) : list (str * json) :=
  omap (λ e, match e with
             | generate_audio_call text v => Some (text, v)
             | _ => None
             end) t.

(** The file writes of a trace, in order. *)
Definition file_writes (t : list event) : list str :=
  omap (λ e, match e with
             | write_call filename _ _ => Some filename
             | _ => None
             end) t.

(** The world after the events [t]. *)
Definition log (t : list event) (w : world) : world :=
  World (text_box w) (voice_choice w) (trace w ++ t) (files w).

(** The events of the synthesis loop over [chunks], [i] being the index of
    the first of them and [n] the number shown as the total. *)
Fixpoint chunk_events (n i : nat) (chunks : list str) (voice_model : json) : list event :=
  match chunks with
  | [] => []
  | chunk :: chunks' =>
      status_config (Processing (S i) n) (lit "orange")
      :: update_idletasks
      :: generate_audio_call chunk voice_model
      :: chunk_events n (S i) chunks' voice_model
  end.

(** The world with another text in the text box. *)
Definition with_text (text : str) (w : world) : world :=
  World text (voice_choice w) (trace w) (files w).

End main_ui.

(** ** The splash screen and the start of the main window *)

(** What [load_models] does to the splash window.  [after ms voices] is
    the call [splash.after(ms, ...)] whose callback stops the progress bar,
    closes the splash window and opens the main window on [voices]. *)
Inductive splash_event :=
  | pb_stop
  | splash_showerror (title : str) (e : exn)
  | splash_destroy
  | after (ms : Z) (voices : list voice).

(** [load_models], [preload_models] being what the call of that name
    answers and [get] the answer of the request of the catalog, which is
    sent only when the models are loaded. *)
Definition load_models (preload_models : result ()) (get : result response)
  : list console * list splash_event :=
  let failed e := [pb_stop; splash_showerror (lit "Error loading models") e;
                   splash_destroy] in
  match preload_models with
  | Ok _ =>
      let '(out, voices) := get_voice_catalog get in
      match voices with
      | Ok voices => (out, [after 300 voices])
      | Raise e => (out, failed e)
      end
  | Raise e => ([], failed e)
  end.

(** [voice_names = [v[name] for v in voice_catalog]] *)
Definition voice_names (voice_catalog : list voice) : list json :=
  voice_name <$> voice_catalog.

(** [voice_names[0]], the value the combobox is set to when the main window
    opens. *)
Definition initial_choice (voice_catalog : list voice) : result json :=
  match voice_names voice_catalog with
  | n :: _ => Ok n
  | [] => Raise IndexError
  end.

(** ** Vocabulary of the properties *)

(** A value that is a string: what the data model asks of an id. *)
Definition is_str (v : json) : Prop :=
  match v with JStr _ => True | _ => False end.

(** A value a set can hold. *)
Definition can_hash (v : json) : Prop :=
  match v with JArr _ | JObj _ => False | _ => True end.

(** The key under which a set holds a value that it can hold. *)
Definition key (v : json) : hashable :=
  match v with
  | JBool b => HNum (if b then 1 else 0)
  | JNum z => HNum z
  | JStr s => HStr s
  | _ => HNone
  end.

(** A remote entry with its two fields: an object that binds ["id"] and
    ["name"]. *)
Definition well_formed (v : json) : Prop :=
  ∃ items i n, v = JObj items
    ∧ dict_get (lit "id") items = Some i ∧ dict_get (lit "name") items = Some n.

(** The entry a well-formed object stands for. *)
Definition entry_of (v : json) : option voice :=
  match v with
  | JObj items =>
      i ← dict_get (lit "id") items; n ← dict_get (lit "name") items; Some (Voice i n)
  | _ => None
  end.

(** The ways the remote fetch fails: the request raises (no network,
    timeout), the status is not 200, the body is not JSON, or the payload
    is not a list of well-formed entries. *)
Inductive fetch_failure : result response → Prop :=
  | request_raises e : fetch_failure (Raise e)
  | bad_status code body : code ≠ 200 → fetch_failure (Ok (Response code body))
  | unparseable_body e : fetch_failure (Ok (Response 200 (Raise e)))
  | malformed_payload data :
      ¬ (∃ l, data = JArr l ∧ Forall well_formed l) →
      fetch_failure (Ok (Response 200 (Ok data))).

(** The JSON object of a remote entry with its two fields. *)
Definition remote_entry (i n : string) : json :=
  JObj [(lit "id", JStr (lit i)); (lit "name", JStr (lit n))].

(** A response with status 200 and the payload [data]. *)
Definition payload (data : json) : result response := Ok (Response 200 (Ok data)).

(** The entry a requested name stands for: the first entry of the catalog
    with that name or, when no entry has it, the first entry. *)
Inductive resolves (name : str) : list voice → voice → Prop :=
  | resolves_named pre v post :
      Forall (λ u, ¬ eq_str (voice_name u) name) pre →
      eq_str (voice_name v) name →
      resolves name (pre ++ v :: post) v
  | resolves_first v rest :
      Forall (λ u, ¬ eq_str (voice_name u) name) (v :: rest) →
      resolves name (v :: rest) v.

(** [s.split()]: the words of a text. *)
Definition words (s : str) : list str := split_runs isspace [] s.

(** The runs of a text between the whitespace characters of [textwrap]. *)
Definition tokens (s : str) : list str := split_runs textwrap.whitespace [] s.

(** Whitespace normalization: the words of a text with single spaces
    between them. *)
Definition normalize (s : str) : str := join (lit " ") (words s).

(** A chunk that is a run of whitespace. *)
Definition spaces (chunk : str) : Prop :=
  chunk ≠ [] ∧ Forall (λ c, textwrap.whitespace c) chunk.

(** Of any two neighbours among the chunks, one is a run of whitespace. *)
Fixpoint separated (chunks : list str) : Prop :=
  match chunks with
  | x :: rest =>
      match rest with
      | y :: _ => (spaces x ∨ spaces y) ∧ separated rest
      | [] => True
      end
  | [] => True
  end.

(** What bounds the rounds of [_wrap_chunks]. *)
Definition rounds (chunks : list str) : nat :=
  (length chunks + length (concat chunks))%nat.

(** * Properties *)

(** ** The voice catalog *)

Lemma comprehension_total {A B} (f : A → result B) (g : A → B) (l : list A) :
  Forall (λ x, f x = Ok (g x)) l → comprehension f l = Ok (g <$> l).
Proof.
  induction 1 as [|x l Hx _ IH]; simpl; [done|].
  by rewrite Hx; simpl; rewrite IH.
Qed.

Lemma comprehension_if_total {A} (p : A → result bool) (P : A → Prop)
    `{!∀ x, Decision (P x)} (l : list A) :
  Forall (λ x, p x = Ok (bool_decide (P x))) l →
  comprehension_if p l = Ok (filter P l).
Proof.
  induction 1 as [|x l Hx _ IH]; simpl; [done|].
  rewrite Hx; simpl; rewrite IH; simpl.
  rewrite filter_cons. by case_bool_decide; case_decide.
Qed.

Lemma comprehension_raises {A B} (f : A → result B) (l : list A) :
  Exists (λ x, ∃ e, f x = Raise e) l → ∃ e, comprehension f l = Raise e.
Proof.
  induction l as [|x l IH]; intros H; [by apply Exists_nil in H|].
  simpl. destruct (f x) as [y|e] eqn:Hx; simpl; [|by eauto].
  apply Exists_cons in H as [[e He]|H]; [congruence|].
  destruct (IH H) as [e ->]. by eauto.
Qed.

Lemma py_hash_key v : can_hash v → py_hash v = Ok (key v).
Proof. by destruct v. Qed.

Lemma key_str_inj v w : is_str v → is_str w → key v = key w → v = w.
Proof. destruct v, w; simpl; try done. by intros _ _ [= ->]. Qed.

Lemma is_str_can_hash v : is_str v → can_hash v.
Proof. by destruct v. Qed.

(** The merge for ids that can be hashed: the local list, then the remote
    entries whose key is not a local key. *)
Lemma merge_voices_keys (L R : list voice) :
  Forall (λ v, can_hash (voice_id v)) L →
  Forall (λ v, can_hash (voice_id v)) R →
  merge_voices L R
  = Ok (L ++ filter (λ v, key (voice_id v) ∉ (λ v, key (voice_id v)) <$> L) R).
Proof.
  intros HL HR. unfold merge_voices.
  rewrite (comprehension_total _ (λ v, key (voice_id v))); simpl.
  2:{ eapply Forall_impl; [exact HL|]. intros v Hv. by apply py_hash_key. }
  rewrite (comprehension_if_total _
    (λ v, key (voice_id v) ∉ (λ v, key (voice_id v)) <$> L)); simpl; [done|].
  eapply Forall_impl; [exact HR|]. intros v Hv; simpl.
  rewrite py_hash_key by done; simpl. f_equal.
  apply bool_decide_ext. by rewrite elem_of_list_to_set.
Qed.

Lemma str_key_elem (L : list voice) v :
  Forall (λ v, is_str (voice_id v)) L → is_str (voice_id v) →
  key (voice_id v) ∈ (λ v, key (voice_id v)) <$> L ↔ voice_id v ∈ voice_id <$> L.
Proof.
  intros HL Hv. rewrite !list_elem_of_fmap. split.
  - intros (w & Hk & Hw). exists w. split; [|done].
    apply key_str_inj; [done| |done].
    by eapply Forall_forall in HL.
  - intros (w & -> & Hw). by exists w.
Qed.

Lemma merge_voices_strings (L R : list voice) :
  Forall (λ v, is_str (voice_id v)) L →
  Forall (λ v, is_str (voice_id v)) R →
  merge_voices L R = Ok (L ++ filter (λ v, voice_id v ∉ voice_id <$> L) R).
Proof.
  intros HL HR. rewrite merge_voices_keys.
  2,3: eapply Forall_impl; [eassumption|]; intros; by apply is_str_can_hash.
  do 2 f_equal. induction HR as [|v R Hv _ IH]; [done|].
  rewrite !filter_cons, IH.
  destruct (decide (key (voice_id v) ∉ _)) as [Hk|Hk],
    (decide (voice_id v ∉ _)) as [Hi|Hi]; try done;
    rewrite str_key_elem in Hk by done; tauto.
Qed.

Lemma get_voice_catalog_from_result (L : list voice) (get : result response) :
  (get_voice_catalog_from L get).2
  = match (fetch_community_voices get).2 with
    | [] => Ok L
    | R => merge_voices L R
    end.
Proof.
  unfold get_voice_catalog_from.
  by destruct (fetch_community_voices get) as [out [|v R]].
Qed.

(** C1.  When the remote fetch answers a non-empty list [R], the resolver
    returns the local list [L] in its order, followed by exactly the
    entries of [R] whose id is not the id of an entry of [L], in the order
    of [R].  The ids are strings, as the data model has them. *)
Theorem get_voice_catalog_merges (L R : list voice) (get : result response) :
  Forall (λ v, is_str (voice_id v)) L →
  Forall (λ v, is_str (voice_id v)) R →
  (fetch_community_voices get).2 = R →
  R ≠ [] →
  (get_voice_catalog_from L get).2
  = Ok (L ++ filter (λ v, voice_id v ∉ voice_id <$> L) R).
Proof.
  intros HL HR Hget HR0. rewrite get_voice_catalog_from_result, Hget.
  destruct R as [|v R]; [done|]. by apply merge_voices_strings.
Qed.

Lemma get_voice_catalog_merges_witness :
  let L := LOCAL_VOICE_OPTIONS in
  let R := [local_voice "community/a" "A"; local_voice "v2/en_speaker_3" "Other"] in
  let get := payload (JArr [remote_entry "community/a" "A";
                            remote_entry "v2/en_speaker_3" "Other"]) in
  (fetch_community_voices get).2 = R
  ∧ (get_voice_catalog_from L get).2
    = Ok (L ++ filter (λ v, voice_id v ∉ voice_id <$> L) R).
Proof.
  split; [reflexivity|].
  apply get_voice_catalog_merges;
    [by repeat constructor | by repeat constructor | reflexivity | discriminate].
Defined.

(** What the comprehension of [fetch_community_voices] makes of one
    element of the payload. *)
Lemma entry_of_well_formed v : well_formed v ↔ is_Some (entry_of v).
Proof.
  split.
  - intros (items & i & n & -> & Hi & Hn). simpl. rewrite Hi; simpl. by rewrite Hn.
  - destruct v as [| | | | |items]; simpl; try by intros [? [=]].
    destruct (dict_get (lit "id") items) as [i|] eqn:Hi; simpl; [|by intros [? [=]]].
    destruct (dict_get (lit "name") items) as [n|] eqn:Hn; simpl; [|by intros [? [=]]].
    intros _. by exists items, i, n.
Qed.

Lemma read_entry v :
  (i ← getitem v (lit "id"); n ← getitem v (lit "name"); Ok (Voice i n))
  = match entry_of v with
    | Some e => Ok e
    | None => Raise (match v with JObj _ => KeyError | _ => TypeError end)
    end.
Proof.
  destruct v as [| | | | |items]; simpl; try done.
  destruct (dict_get (lit "id") items) as [i|]; simpl; [|done].
  by destruct (dict_get (lit "name") items) as [n|].
Qed.

Lemma read_entries_raise (l : list json) :
  Exists (λ v, ¬ well_formed v) l →
  ∃ e, comprehension
         (λ v, i ← getitem v (lit "id"); n ← getitem v (lit "name"); Ok (Voice i n)) l
       = Raise e.
Proof.
  intros H. apply comprehension_raises.
  eapply Exists_impl; [exact H|]. intros v Hv; simpl.
  rewrite read_entry. destruct (entry_of v) eqn:He; [|by eauto].
  destruct Hv. apply entry_of_well_formed. by rewrite He.
Qed.

Lemma not_all_well_formed (l : list json) :
  ¬ Forall well_formed l → Exists (λ v, ¬ well_formed v) l.
Proof.
  induction l as [|v l IH]; intros H; [by destruct H|].
  destruct (entry_of v) eqn:He.
  - apply Exists_cons_tl, IH. intros Hl. apply H. constructor; [|done].
    apply entry_of_well_formed. by rewrite He.
  - apply Exists_cons_hd. intros Hv%entry_of_well_formed.
    rewrite He in Hv. by destruct Hv.
Qed.

(** A payload with a malformed element makes the whole fetch raise inside
    its [try]: the handler prints and the fetch answers the empty list. *)
Lemma fetch_malformed_list (l : list json) :
  Exists (λ v, ¬ well_formed v) l →
  ∃ e, fetch_community_voices (payload (JArr l)) = ([PrintUnable e], []).
Proof.
  intros [e He]%read_entries_raise. exists e.
  unfold fetch_community_voices, fetch_attempt, payload; simpl.
  by rewrite He.
Qed.

Lemma fetch_failure_empty (get : result response) :
  fetch_failure get → (fetch_community_voices get).2 = [].
Proof.
  unfold fetch_community_voices, fetch_attempt.
  destruct 1 as [e|code body Hcode|e|data Hdata]; simpl; try done.
  - by destruct (decide (code = 200)).
  - destruct data as [| | |s|l|items]; simpl; try done.
    + by destruct s as [|c s].
    + destruct (fetch_malformed_list l) as [e He].
      { apply not_all_well_formed. intros Hl. apply Hdata. by exists l. }
      unfold fetch_community_voices, fetch_attempt, payload in He; simpl in He.
      by destruct (comprehension _ l) as [voices|e'].
    + by destruct items as [|[k v] items].
Qed.

(** C7.  Whatever way the remote fetch fails (the request raises, as on a
    network error or a timeout; the status is not 200; the body is not
    JSON; the payload is not a list of well-formed entries), the resolver
    returns exactly the local list: nothing is raised, the caller sees only
    the catalog, and the console says that the local voices are used. *)
Theorem fetch_failure_falls_back (L : list voice) (get : result response) :
  fetch_failure get →
  ∃ out, get_voice_catalog_from L get = (out ++ [PrintOffline], Ok L).
Proof.
  intros H%fetch_failure_empty. unfold get_voice_catalog_from.
  destruct (fetch_community_voices get) as [out R]; simpl in H; subst R.
  by exists out.
Qed.

Lemma fetch_failure_falls_back_witness :
  ∃ out, get_voice_catalog_from LOCAL_VOICE_OPTIONS
           (Ok (Response 503 (Ok (JArr [remote_entry "community/a" "A"]))))
         = (out ++ [PrintOffline], Ok LOCAL_VOICE_OPTIONS).
Proof. apply fetch_failure_falls_back. by apply bad_status. Defined.

(** C6, as the claim has it, fails: of a payload with one well-formed and
    one malformed entry nothing is merged, although the well-formed entry
    alone would be. *)
Lemma malformed_entry_drops_well_formed_ones :
  let good := remote_entry "community/a" "A" in
  let bad := JObj [(lit "id", JStr (lit "community/b"))] in
  (get_voice_catalog (payload (JArr [good]))).2
  = Ok (LOCAL_VOICE_OPTIONS ++ [local_voice "community/a" "A"])
  ∧ (get_voice_catalog (payload (JArr [good; bad]))).2 = Ok LOCAL_VOICE_OPTIONS.
Proof. split; vm_compute; reflexivity. Qed.

(** C6, amended.  If the payload parses as a list and one of its entries is
    malformed (it is not an object that has both an id and a name), the
    fetch raises inside its [try], the failure is printed, the whole remote
    list is given up and the resolver returns exactly the local list. *)
Theorem malformed_entry_abandons_remote_list (L : list voice) (l : list json) :
  Exists (λ v, ¬ well_formed v) l →
  ∃ e, get_voice_catalog_from L (payload (JArr l))
       = ([PrintUnable e; PrintOffline], Ok L).
Proof.
  intros [e He]%fetch_malformed_list. exists e.
  unfold get_voice_catalog_from. by rewrite He.
Qed.

Lemma malformed_entry_abandons_remote_list_witness :
  ∃ e, get_voice_catalog_from LOCAL_VOICE_OPTIONS
         (payload (JArr [remote_entry "community/a" "A";
                         JObj [(lit "id", JStr (lit "community/b"))]]))
       = ([PrintUnable e; PrintOffline], Ok LOCAL_VOICE_OPTIONS).
Proof.
  apply malformed_entry_abandons_remote_list.
  apply Exists_cons_tl, Exists_cons_hd.
  intros (items & i & n & [= <-] & _ & Hn). vm_compute in Hn. discriminate.
Defined.

Lemma local_ids_are_strings : Forall (λ v, is_str (voice_id v)) LOCAL_VOICE_OPTIONS.
Proof. by repeat constructor. Qed.

Lemma local_ids_distinct : NoDup (voice_id <$> LOCAL_VOICE_OPTIONS).
Proof. apply (bool_decide_unpack _). by vm_compute. Qed.

(** C8, as the claim has it, fails: two remote entries that share an id
    foreign to the local list are both kept. *)
Lemma remote_duplicates_are_kept :
  ∃ cat,
    (get_voice_catalog
       (payload (JArr [remote_entry "community/a" "A";
                       remote_entry "community/a" "B"]))).2 = Ok cat
    ∧ ¬ NoDup (voice_id <$> cat).
Proof.
  eexists. split; [vm_compute; reflexivity|].
  intros H%(bool_decide_pack _). by vm_compute in H.
Qed.

(** C8, amended.  The catalog holds each voice id at most once whenever the
    ids of the fetched remote entries are strings that differ from one
    another: the local ids differ from one another and a remote entry with
    a local id is left out.  Nothing is said of remote lists that repeat an
    id. *)
Theorem catalog_ids_unique (get : result response) :
  Forall (λ v, is_str (voice_id v)) (fetch_community_voices get).2 →
  NoDup (voice_id <$> (fetch_community_voices get).2) →
  ∃ cat, (get_voice_catalog get).2 = Ok cat ∧ NoDup (voice_id <$> cat).
Proof.
  intros Hstr Hnd. unfold get_voice_catalog.
  rewrite get_voice_catalog_from_result.
  destruct (fetch_community_voices get).2 as [|v R] eqn:HR.
  { eexists. split; [done|]. apply local_ids_distinct. }
  rewrite merge_voices_strings by (done || apply local_ids_are_strings).
  eexists. split; [done|].
  rewrite fmap_app. apply NoDup_app. split_and!.
  - apply local_ids_distinct.
  - intros i Hi (w & -> & Hw)%list_elem_of_fmap.
    by apply list_elem_of_filter in Hw as [Hw _].
  - eapply sublist_NoDup; [exact Hnd|].
    apply fmap_sublist, sublist_filter.
Qed.

Lemma catalog_ids_unique_witness :
  ∃ cat,
    (get_voice_catalog
       (payload (JArr [remote_entry "community/a" "A";
                       remote_entry "v2/en_speaker_0" "B"]))).2 = Ok cat
    ∧ NoDup (voice_id <$> cat).
Proof.
  apply catalog_ids_unique.
  - by repeat constructor.
  - apply (bool_decide_unpack _). by vm_compute.
Defined.

(** C9, as the claim has it, fails: a remote entry whose id is a JSON array
    makes the membership test of the merge raise [TypeError], which leaves
    the resolver. *)
Lemma unhashable_remote_id_raises :
  (get_voice_catalog
     (payload (JArr [JObj [(lit "id", JArr []); (lit "name", JStr (lit "A"))]]))).2
  = Raise TypeError.
Proof. vm_compute. reflexivity. Qed.

(** C9, amended.  For every outcome of the remote fetch in which no fetched
    entry has a JSON array or object as its id (a success with such
    entries, a success with an empty list, any failure), the resolver does
    not raise and returns a list whose first eight entries are the built-in
    local entries in their order. *)
Theorem get_voice_catalog_local_first (get : result response) :
  Forall (λ v, can_hash (voice_id v)) (fetch_community_voices get).2 →
  ∃ cat, (get_voice_catalog get).2 = Ok cat ∧ take 8 cat = LOCAL_VOICE_OPTIONS.
Proof.
  intros Hhash. unfold get_voice_catalog.
  rewrite get_voice_catalog_from_result.
  destruct (fetch_community_voices get).2 as [|v R] eqn:HR.
  { by eexists. }
  rewrite merge_voices_keys; [by eexists|
    |done].
  eapply Forall_impl; [apply local_ids_are_strings|].
  intros w Hw. by apply is_str_can_hash.
Qed.

Lemma get_voice_catalog_local_first_witness :
  ∃ cat,
    (get_voice_catalog
       (payload (JArr [JObj [(lit "id", JNum 7); (lit "name", JNull)]]))).2 = Ok cat
    ∧ take 8 cat = LOCAL_VOICE_OPTIONS.
Proof. apply get_voice_catalog_local_first. by repeat constructor. Defined.

(** ** The generate and preview workflows *)
Section main_ui_properties.

Context {sample : Type}.
Variable SAMPLE_RATE : Z.
Variable generate_audio : str → json → result (list sample).
Variable asksaveasfilename : str.
Variable write_error : str → option exn.
Variable play_error : option exn.

Local Abbreviation synthesize_def := @synthesize.
Local Abbreviation worker_def := @worker.
Local Abbreviation generate_voice_def := @generate_voice.
Local Abbreviation worker_preview_def := @worker_preview.
Local Abbreviation preview_voice_def := @preview_voice.
Local Abbreviation world := (@world sample).
Local Abbreviation event := (@event sample).
Local Abbreviation synthesize := (synthesize generate_audio).
Local Abbreviation chunk_events := (@chunk_events sample).
Local Abbreviation synthesis_calls := (@synthesis_calls sample).
Local Abbreviation file_writes := (@file_writes sample).
Local Abbreviation worker :=
  (worker SAMPLE_RATE generate_audio asksaveasfilename write_error).
Local Abbreviation generate_voice :=
  (generate_voice SAMPLE_RATE generate_audio asksaveasfilename write_error).
Local Abbreviation worker_preview :=
  (worker_preview SAMPLE_RATE generate_audio write_error play_error).
Local Abbreviation preview_voice :=
  (preview_voice SAMPLE_RATE generate_audio write_error play_error).

Local Ltac run :=
  cbv beta iota zeta delta
    [mbind io_bind mret io_ret emit lift log call_generate_audio try_except
     try_finally];
  cbn [fst snd text_box voice_choice trace files].

Lemma lstrip_isspace (s : str) : Forall (λ c, isspace c) s → lstrip s = [].
Proof.
  induction 1 as [|c s Hc _ IH]; [done|]. simpl.
  by destruct (isspace c).
Qed.

Lemma strip_isspace (s : str) : Forall (λ c, isspace c) s → strip s = [].
Proof. intros H. unfold strip. by rewrite lstrip_isspace. Qed.

(** C4.  When the text box holds nothing but whitespace (nothing at all, or
    only the newline the widget appends, among others), [generate_voice]
    shows the warning and returns: the warning is the only event, no
    synthesis call is made, no thread is started and no file is touched. *)
Theorem blank_text_is_rejected (voice_catalog : list voice) (w : world) :
  Forall (λ c, isspace c) (text_box w) →
  generate_voice voice_catalog w
  = (log [showwarning (lit "Missing text") (lit "Please enter text to generate.")] w,
     Ok ())
  ∧ synthesis_calls (trace (generate_voice voice_catalog w).1) = synthesis_calls (trace w).
Proof.
  intros H. unfold generate_voice. rewrite (strip_isspace _ H).
  split; [done|]. run. unfold synthesis_calls.
  by rewrite omap_app, app_nil_r.
Qed.

Lemma find_resolves (name : str) (l : list voice) :
  match List.find (λ v, eq_str (voice_name v) name) l with
  | Some v => ∃ pre post, l = pre ++ v :: post
      ∧ Forall (λ u, ¬ eq_str (voice_name u) name) pre ∧ eq_str (voice_name v) name
  | None => Forall (λ u, ¬ eq_str (voice_name u) name) l
  end.
Proof.
  induction l as [|u l IH]; simpl; [done|].
  destruct (eq_str (voice_name u) name) eqn:Hu.
  - exists [], l. split_and!; [done|constructor|by rewrite Hu].
  - destruct (find _ l) as [v|].
    + destruct IH as (pre & post & -> & Hpre & Hv).
      exists (u :: pre), post. split_and!; [done| |done].
      constructor; [rewrite Hu; by intros []|done].
    + constructor; [rewrite Hu; by intros []|done].
Qed.

Lemma next_resolves (name : str) (v0 : voice) (rest : list voice) :
  resolves name (v0 :: rest)
    (next (λ v, eq_str (voice_name v) name) (v0 :: rest) v0).
Proof.
  unfold next. pose proof (find_resolves name (v0 :: rest)) as H.
  destruct (find _ (v0 :: rest)) as [v|].
  - destruct H as (pre & post & -> & Hpre & Hv). by constructor.
  - by constructor.
Qed.

Lemma synthesis_calls_app (t1 t2 : list event) :
  synthesis_calls (t1 ++ t2) = synthesis_calls t1 ++ synthesis_calls t2.
Proof. apply omap_app. Qed.

Lemma file_writes_app (t1 t2 : list event) :
  file_writes (t1 ++ t2) = file_writes t1 ++ file_writes t2.
Proof. apply omap_app. Qed.

Lemma synthesis_calls_chunk_events n i chunks voice_model :
  synthesis_calls (chunk_events n i chunks voice_model)
  = (λ c, (c, voice_model)) <$> chunks.
Proof.
  revert i. induction chunks as [|c chunks IH]; intros i; [done|].
  simpl. f_equal. apply IH.
Qed.

Lemma file_writes_chunk_events n i chunks voice_model :
  file_writes (chunk_events n i chunks voice_model) = [].
Proof.
  revert i. induction chunks as [|c chunks IH]; intros i; [done|].
  simpl. apply IH.
Qed.

Lemma chunk_events_app n i pre post voice_model :
  chunk_events n i (pre ++ post) voice_model
  = chunk_events n i pre voice_model
    ++ chunk_events n (length pre + i) post voice_model.
Proof.
  revert i. induction pre as [|c pre IH]; intros i; [done|].
  simpl. do 3 f_equal. rewrite IH. do 2 f_equal. lia.
Qed.

(** The loop stops at the first chunk whose synthesis raises: the chunks
    before it have been synthesized once each, the later ones not at all. *)
Lemma synthesize_run n i chunks voice_model acc (w : world) :
  ∃ k, (k ≤ length chunks)%nat
    ∧ (synthesize n i chunks voice_model acc w).1
      = log (chunk_events n i (take k chunks) voice_model) w
    ∧ match (synthesize n i chunks voice_model acc w).2 with
      | Ok audio =>
          k = length chunks
          ∧ Forall2 (λ c a, generate_audio c voice_model = Ok a) chunks
              (drop (length acc) audio)
          ∧ take (length acc) audio = acc
      | Raise e =>
          ∃ c, chunks !! (k - 1)%nat = Some c ∧ (0 < k)%nat
            ∧ generate_audio c voice_model = Raise e
            ∧ Forall (λ c, ∃ a, generate_audio c voice_model = Ok a)
                (take (k - 1) chunks)
      end.
Proof.
  revert i acc w. induction chunks as [|c chunks IH]; intros i acc [tb vc tr fs].
  - exists 0%nat. simpl. run. rewrite app_nil_r.
    split_and!; [done|done|done| |by rewrite take_ge].
    by rewrite drop_ge.
  - simpl. run.
    destruct (generate_audio c voice_model) as [a|e] eqn:Hc.
    + match goal with
      | |- context [synthesize_def _ _ n (S i) chunks voice_model ?acc' ?w'] =>
          destruct (IH (S i) acc' w') as (k & Hk & Hw & Hr)
      end.
      exists (S k). split; [simpl; lia|]. split.
      { rewrite Hw. run. simpl. by rewrite <- !app_assoc. }
      destruct (synthesize_def _ _ n (S i) chunks voice_model _ _).2 as [audio|e].
      * destruct Hr as (-> & HF & Ht). rewrite length_app in HF, Ht. simpl in *.
        split; [done|].
        assert (audio = acc ++ a :: drop (length acc + 1) audio) as Ha.
        { rewrite <- (take_drop (length acc + 1) audio) at 1.
          rewrite Ht. by rewrite <- app_assoc. }
        split.
        -- rewrite Ha at 1. rewrite drop_app_length. by constructor.
        -- rewrite Ha. by rewrite take_app_length.
      * destruct Hr as (c' & Hl & Hpos & He & Hpre). exists c'.
        replace (S k - 1)%nat with (S (k - 1)) by lia.
        split_and!; [done|lia|done|].
        simpl. constructor; [by eauto|done].
    + exists 1%nat. split; [simpl; lia|]. simpl.
      rewrite ?take_0. split; [by rewrite <- !app_assoc|].
      exists c. split_and!; [done|lia|done|]. by constructor.
Qed.

Lemma synthesize_raises n i pre chunk post voice_model acc (w : world) e :
  Forall (λ c, ∃ a, generate_audio c voice_model = Ok a) pre →
  generate_audio chunk voice_model = Raise e →
  synthesize n i (pre ++ chunk :: post) voice_model acc w
  = (log (chunk_events n i (pre ++ [chunk]) voice_model) w, Raise e).
Proof.
  intros Hpre He. revert i acc w.
  induction Hpre as [|c pre [a Ha] _ IH]; intros i acc [tb vc tr fs]; simpl; run.
  - rewrite He. by rewrite <- !app_assoc.
  - rewrite Ha, IH. run. by rewrite <- !app_assoc.
Qed.

Lemma chunk_events_no_dialog n i chunks voice_model :
  asksaveasfilename_call ∉ chunk_events n i chunks voice_model.
Proof.
  revert i. induction chunks as [|c chunks IH]; intros i H; simpl in H.
  - by apply elem_of_nil in H.
  - repeat (apply elem_of_cons in H as [H|H]; [discriminate|]). by eapply IH.
Qed.

Lemma wrap_250_ok (text : str) : ∃ chunks, textwrap.wrap text 250 = Ok chunks.
Proof. by eexists. Qed.

(** C3.  If the synthesis of a chunk raises, the chunks before it having
    been synthesized, the request ends there: every chunk up to the
    failing one has been handed to the model exactly once, in order, and no
    later chunk at all (nothing is retried, nothing is skipped over); the
    error box is shown with the exception; the save dialog is not opened
    and no file is written, the files being what they were. *)
Theorem failed_chunk_aborts (text_prompt : str) (voice_model : json) (w : world)
    (pre : list str) (chunk : str) (post : list str) (e : exn) :
  textwrap.wrap text_prompt 250 = Ok (pre ++ chunk :: post) →
  Forall (λ c, ∃ a, generate_audio c voice_model = Ok a) pre →
  generate_audio chunk voice_model = Raise e →
  ∃ t, worker text_prompt voice_model w = (log t w, Ok ())
    ∧ synthesis_calls t = (λ c, (c, voice_model)) <$> (pre ++ [chunk])
    ∧ (showerror (lit "Error") e ∈ t)
    ∧ (asksaveasfilename_call ∉ t)
    ∧ file_writes t = [].
Proof.
  intros Hwrap Hpre He.
  exists ([progress_pack; progress_start; status_config Generating (lit "orange")]
          ++ chunk_events (length (pre ++ chunk :: post)) 0 (pre ++ [chunk]) voice_model
          ++ [showerror (lit "Error") e; status_config GenerationError (lit "red");
              progress_stop; progress_pack_forget]).
  split_and!.
  - destruct w as [tb vc tr fs]. unfold worker_def. run.
    rewrite Hwrap. rewrite (synthesize_raises _ _ _ _ _ _ _ _ e Hpre He). run.
    by rewrite <- !app_assoc.
  - rewrite !synthesis_calls_app, synthesis_calls_chunk_events. simpl.
    by rewrite app_nil_r.
  - rewrite !elem_of_app. right; right. by left.
  - rewrite !elem_of_app. intros [H|[H|H]].
    + repeat (apply elem_of_cons in H as [H|H]; [discriminate|]).
      by apply elem_of_nil in H.
    + by apply chunk_events_no_dialog in H.
    + repeat (apply elem_of_cons in H as [H|H]; [discriminate|]).
      by apply elem_of_nil in H.
  - rewrite !file_writes_app, file_writes_chunk_events. done.
Qed.

Lemma synthesis_calls_voice (voice_model : json) (t : list event) :
  Forall (λ ev, ∀ text v, ev = generate_audio_call text v → v = voice_model) t →
  Forall (λ c, c.2 = voice_model) (synthesis_calls t).
Proof.
  induction 1 as [|ev t Hev _ IH]; [constructor|].
  destruct ev; simpl; try done. constructor; [|done]. by eapply Hev.
Qed.

Lemma chunk_events_voice n i chunks voice_model :
  Forall (λ ev : event, ∀ text v, ev = generate_audio_call text v → v = voice_model)
    (chunk_events n i chunks voice_model).
Proof.
  revert i. induction chunks as [|c chunks IH]; intros i; simpl; [constructor|].
  repeat (constructor; [by intros ?? [=]|]). apply IH.
Qed.

Local Ltac other_events :=
  repeat first
    [ apply Forall_nil_2
    | apply Forall_cons; split; [by intros ?? [=]|]
    | apply Forall_app; split
    | apply chunk_events_voice ].

Local Ltac end_of_run :=
  eexists _, _; split; [reflexivity|]; split;
  [cbn [trace]; rewrite <- ?app_assoc; reflexivity|];
  apply synthesis_calls_voice; other_events.

(** However a run of the worker ends, it returns, and every synthesis call
    it has made carries the voice it was started with. *)
Lemma worker_calls (text_prompt : str) (voice_model : json) (w : world) :
  ∃ w' t, worker text_prompt voice_model w = (w', Ok ())
    ∧ trace w' = trace w ++ t
    ∧ Forall (λ c, c.2 = voice_model) (synthesis_calls t).
Proof.
  destruct w as [tb vc tr fs]. unfold worker_def. run.
  destruct (wrap_250_ok text_prompt) as [chunks ->].
  match goal with
  | |- context [synthesize_def _ _ ?n ?i chunks voice_model ?acc ?w0] =>
      destruct (synthesize_run n i chunks voice_model acc w0) as (k & _ & Hw & _);
      destruct (synthesize_def _ _ n i chunks voice_model acc w0) as [w1 r]
  end.
  simpl in Hw. subst w1. run.
  destruct r as [audio|e]; [|end_of_run].
  destruct (np_concatenate audio) as [final_audio|e]; [|end_of_run].
  destruct asksaveasfilename as [|c filename]; run; [end_of_run|].
  unfold write. run.
  destruct (write_error (c :: filename)) as [e|]; run; end_of_run.
Qed.

Lemma worker_preview_calls (selected_name : str) (voice_model : json) (w : world) :
  ∃ w' t, worker_preview selected_name voice_model w = (w', Ok ())
    ∧ trace w' = trace w ++ t
    ∧ synthesis_calls t
      = [(lit "Hello, this is a quick voice preview.", voice_model)].
Proof.
  destruct w as [tb vc tr fs]. unfold worker_preview_def. run.
  destruct (generate_audio _ voice_model) as [audio_array|e]; run.
  2:{ eexists _, _. split; [reflexivity|]. split;
        [cbn [trace]; rewrite <- ?app_assoc; reflexivity|done]. }
  unfold write. run.
  destruct (write_error _) as [e|]; run.
  { eexists _, _. split; [reflexivity|]. split;
      [cbn [trace]; rewrite <- ?app_assoc; reflexivity|done]. }
  unfold from_wave_file. run. rewrite lookup_insert_eq.
  unfold play. run.
  destruct play_error as [e|]; run;
    (eexists _, _; split; [reflexivity|]; split;
      [cbn [trace]; rewrite <- ?app_assoc; reflexivity|done]).
Qed.

(** C5.  For a catalog that is not empty, the resolution of the requested
    name raises nothing: it picks the first entry with that name or, when
    no entry has it, the first entry of the catalog.  The id of the entry
    picked is the voice of the worker, in [generate_voice] as in
    [preview_voice], and of every synthesis call that follows. *)
Theorem voice_resolution_never_fails (voice_catalog : list voice) (w : world) :
  voice_catalog ≠ [] →
  ∃ v, resolves (voice_choice w) voice_catalog v
    ∧ (strip (text_box w) ≠ [] →
       generate_voice voice_catalog w
       = worker (strip (text_box w)) (voice_id v) (log [thread_start] w))
    ∧ preview_voice voice_catalog w
      = worker_preview (voice_choice w) (voice_id v) (log [thread_start] w)
    ∧ (∃ w' t, generate_voice voice_catalog w = (w', Ok ())
         ∧ trace w' = trace w ++ t
         ∧ Forall (λ c, c.2 = voice_id v) (synthesis_calls t))
    ∧ (∃ w' t, preview_voice voice_catalog w = (w', Ok ())
         ∧ trace w' = trace w ++ t
         ∧ Forall (λ c, c.2 = voice_id v) (synthesis_calls t)).
Proof.
  destruct voice_catalog as [|v0 rest]; [done|]. intros _.
  exists (next (λ v, eq_str (voice_name v) (voice_choice w)) (v0 :: rest) v0).
  set (v := next _ _ _).
  assert (preview_voice (v0 :: rest) w
          = worker_preview (voice_choice w) (voice_id v) (log [thread_start] w))
    as Hpreview by done.
  assert (strip (text_box w) ≠ [] →
          generate_voice (v0 :: rest) w
          = worker (strip (text_box w)) (voice_id v) (log [thread_start] w))
    as Hgenerate.
  { unfold generate_voice_def. by destruct (strip (text_box w)). }
  split_and!; [apply next_resolves|done|done| |].
  - destruct (strip (text_box w)) as [|c s] eqn:Hs.
    + unfold generate_voice_def. rewrite Hs. run.
      eexists _, [_]. split_and!; [done|done|]. constructor.
    + rewrite Hgenerate by done.
      destruct (worker_calls (c :: s) (voice_id v) (log [thread_start] w))
        as (w' & t & -> & Ht & Hcalls).
      exists w', (thread_start :: t). split_and!; [done| |done].
      rewrite Ht. simpl. by rewrite <- app_assoc.
  - rewrite Hpreview.
    destruct (worker_preview_calls (voice_choice w) (voice_id v) (log [thread_start] w))
      as (w' & t & -> & Ht & Hcalls).
    exists w', (thread_start :: t). split_and!; [done| |].
    + rewrite Ht. simpl. by rewrite <- app_assoc.
    + simpl. rewrite Hcalls. by repeat constructor.
Qed.

(** The preview does not read the text box. *)
Lemma preview_voice_ignores_text (voice_catalog : list voice) (w : world) (text : str) :
  preview_voice voice_catalog (with_text text w)
  = (with_text text (preview_voice voice_catalog w).1,
     (preview_voice voice_catalog w).2).
Proof.
  destruct w as [tb vc tr fs]. unfold preview_voice_def, with_text. run.
  destruct (first_entry voice_catalog) as [v0|e]; [|done]. run.
  unfold worker_preview_def. run.
  destruct (generate_audio _ _) as [audio_array|e]; run; [|done].
  unfold write. run.
  destruct (write_error _) as [e|]; run; [done|].
  unfold from_wave_file. run. rewrite lookup_insert_eq.
  unfold play. run.
  by destruct play_error as [e|].
Qed.

Local Ltac trace_is := cbn [trace]; rewrite <- ?app_assoc; reflexivity.

(** C10.  Whatever the text box holds, the preview hands the model the one
    sample sentence, once, with the voice resolved from the combobox.  A
    file is written only to [preview_sample.wav]: when the synthesis
    returns, its audio is written there, replacing what the file held, and
    the playback of that audio comes right after the write; when the
    synthesis raises, nothing is written. *)
Theorem preview_uses_fixed_sample (voice_catalog : list voice) (w : world) :
  voice_catalog ≠ [] →
  let sample_text := lit "Hello, this is a quick voice preview." in
  let temp_file := lit "preview_sample.wav" in
  ∃ voice_model w' t,
    preview_voice voice_catalog w = (w', Ok ())
    ∧ trace w' = trace w ++ t
    ∧ (∀ text, preview_voice voice_catalog (with_text text w) = (with_text text w', Ok ()))
    ∧ synthesis_calls t = [(sample_text, voice_model)]
    ∧ match generate_audio sample_text voice_model with
      | Ok audio_array =>
          file_writes t = [temp_file]
          ∧ (write_error temp_file = None →
             files w' = <[temp_file := (SAMPLE_RATE, audio_array)]> (files w)
             ∧ ∃ t1 t2,
                 t = t1 ++ write_call temp_file SAMPLE_RATE audio_array
                        :: play_call SAMPLE_RATE audio_array :: t2)
      | Raise _ => file_writes t = [] ∧ files w' = files w
      end.
Proof.
  destruct voice_catalog as [|v0 rest]; [done|]. intros _ sample_text temp_file.
  destruct w as [tb vc tr fs].
  exists (voice_id (next (λ v, eq_str (voice_name v) vc) (v0 :: rest) v0)).
  set (voice_model := voice_id _). set (w := World tb vc tr fs).
  cut (∃ w' t,
    preview_voice (v0 :: rest) w = (w', Ok ())
    ∧ trace w' = trace w ++ t
    ∧ synthesis_calls t = [(sample_text, voice_model)]
    ∧ match generate_audio sample_text voice_model with
      | Ok audio_array =>
          file_writes t = [temp_file]
          ∧ (write_error temp_file = None →
             files w' = <[temp_file := (SAMPLE_RATE, audio_array)]> (files w)
             ∧ ∃ t1 t2,
                 t = t1 ++ write_call temp_file SAMPLE_RATE audio_array
                        :: play_call SAMPLE_RATE audio_array :: t2)
      | Raise _ => file_writes t = [] ∧ files w' = files w
      end).
  { intros (w' & t & Hrun & Htrace & Hcalls & Hfiles).
    exists w', t. split_and!; try done.
    intros text. rewrite preview_voice_ignores_text. by rewrite Hrun. }
  subst w.
  unfold preview_voice_def, worker_preview_def. run.
  cbn [first_entry]. run. fold voice_model. fold sample_text. fold temp_file.
  destruct (generate_audio sample_text voice_model) as [audio_array|e]; run.
  2:{ eexists _, _. split; [reflexivity|]. split; [trace_is|]. done. }
  unfold write. run.
  destruct (write_error temp_file) as [e|] eqn:Hwrite; run.
  { eexists _, _. split; [reflexivity|]. split; [trace_is|]. done. }
  unfold from_wave_file. run. rewrite lookup_insert_eq.
  unfold play. run.
  destruct play_error as [e|]; run;
    (eexists _, _; split; [reflexivity|]; split; [trace_is|];
     split; [done|]; split; [done|]; intros _; split; [done|];
     eexists [thread_start; progress_pack; progress_start;
              status_config (Previewing vc) (lit "orange");
              generate_audio_call sample_text voice_model], _; reflexivity).
Qed.

End main_ui_properties.

Lemma blank_text_is_rejected_witness :
  let w : @world nat := World [" "; "010"]%char (lit "Deep Male (English)") [] ∅ in
  let generate_voice :=
    generate_voice 24000 (λ _ _, Ok [1; 2; 3]%nat) (lit "out.wav") (λ _, None) in
  generate_voice LOCAL_VOICE_OPTIONS w
  = (log [showwarning (lit "Missing text") (lit "Please enter text to generate.")] w,
     Ok ())
  ∧ synthesis_calls (trace (generate_voice LOCAL_VOICE_OPTIONS w).1)
    = synthesis_calls (trace w).
Proof.
  intros w generate_voice. apply blank_text_is_rejected.
  by repeat constructor.
Defined.

Lemma failed_chunk_aborts_witness :
  let w : @world nat := World (lit "hello") (lit "Deep Male (English)") [] ∅ in
  let e := RuntimeError (lit "model failed") in
  let voice_model := JStr (lit "v2/en_speaker_0") in
  ∃ t, worker 24000 (λ _ _, Raise e) (lit "out.wav") (λ _, None)
         (lit "hello") voice_model w = (log t w, Ok ())
    ∧ synthesis_calls t = (λ c, (c, voice_model)) <$> ([] ++ [lit "hello"])
    ∧ (showerror (lit "Error") e ∈ t)
    ∧ (asksaveasfilename_call ∉ t)
    ∧ file_writes t = [].
Proof.
  intros w e voice_model.
  apply (failed_chunk_aborts 24000 (λ _ _, Raise e) (lit "out.wav") (λ _, None)
           (lit "hello") voice_model w [] (lit "hello") [] e).
  - vm_compute. reflexivity.
  - constructor.
  - reflexivity.
Defined.

Lemma voice_resolution_never_fails_witness :
  let w : @world nat := World (lit "hello") (lit "No such voice") [] ∅ in
  ∃ v, resolves (voice_choice w) LOCAL_VOICE_OPTIONS v
    ∧ (strip (text_box w) ≠ [] →
       generate_voice 24000 (λ _ _, Ok [1%nat]) (lit "out.wav") (λ _, None)
         LOCAL_VOICE_OPTIONS w
       = worker 24000 (λ _ _, Ok [1%nat]) (lit "out.wav") (λ _, None)
           (strip (text_box w)) (voice_id v) (log [thread_start] w))
    ∧ preview_voice 24000 (λ _ _, Ok [1%nat]) (λ _, None) None LOCAL_VOICE_OPTIONS w
      = worker_preview 24000 (λ _ _, Ok [1%nat]) (λ _, None) None
          (voice_choice w) (voice_id v) (log [thread_start] w)
    ∧ (∃ w' t, generate_voice 24000 (λ _ _, Ok [1%nat]) (lit "out.wav") (λ _, None)
                 LOCAL_VOICE_OPTIONS w = (w', Ok ())
         ∧ trace w' = trace w ++ t
         ∧ Forall (λ c, c.2 = voice_id v) (synthesis_calls t))
    ∧ (∃ w' t, preview_voice 24000 (λ _ _, Ok [1%nat]) (λ _, None) None
                 LOCAL_VOICE_OPTIONS w = (w', Ok ())
         ∧ trace w' = trace w ++ t
         ∧ Forall (λ c, c.2 = voice_id v) (synthesis_calls t)).
Proof.
  intros w.
  apply (voice_resolution_never_fails 24000 (λ _ _, Ok [1%nat]) (lit "out.wav")
           (λ _, None) None LOCAL_VOICE_OPTIONS w).
  discriminate.
Defined.

Lemma preview_uses_fixed_sample_witness :
  let w : @world nat := World (lit "any text") (lit "Soft Female (English)") [] ∅ in
  let sample_text := lit "Hello, this is a quick voice preview." in
  let temp_file := lit "preview_sample.wav" in
  ∃ voice_model w' t,
    preview_voice 24000 (λ _ _, Ok [1%nat]) (λ _, None) None LOCAL_VOICE_OPTIONS w
    = (w', Ok ())
    ∧ trace w' = trace w ++ t
    ∧ (∀ text,
         preview_voice 24000 (λ _ _, Ok [1%nat]) (λ _, None) None LOCAL_VOICE_OPTIONS
           (with_text text w) = (with_text text w', Ok ()))
    ∧ synthesis_calls t = [(sample_text, voice_model)]
    ∧ match (Ok [1%nat] : result (list nat)) with
      | Ok audio_array =>
          file_writes t = [temp_file]
          ∧ ((None : option exn) = None →
             files w' = <[temp_file := (24000, audio_array)]> (files w)
             ∧ ∃ t1 t2,
                 t = t1 ++ write_call temp_file 24000 audio_array
                        :: play_call 24000 audio_array :: t2)
      | Raise _ => file_writes t = [] ∧ files w' = files w
      end.
Proof.
  intros w sample_text temp_file.
  apply (preview_uses_fixed_sample 24000 (λ _ _, Ok [1%nat]) (λ _, None) None
           LOCAL_VOICE_OPTIONS w).
  discriminate.
Defined.


(** ** Text splitting *)
Section split_runs.

Variable sep : ascii → bool.

(** The words read so far, when the text ends or a separator comes. *)
Lemma split_runs_sep (cur s1 : str) (c : ascii) (s2 : str) :
  sep c →
  split_runs sep cur (s1 ++ c :: s2) = split_runs sep cur s1 ++ split_runs sep [] s2.
Proof.
  intros Hc. revert cur. induction s1 as [|d s1 IH]; intros cur; simpl.
  - destruct (sep c); [|done]. by destruct cur.
  - destruct (sep d); [|apply IH].
    destruct cur; simpl; by rewrite IH.
Qed.

Lemma split_runs_all_sep (s : str) :
  Forall (λ c, sep c) s → split_runs sep [] s = [].
Proof.
  induction 1 as [|c s Hc _ IH]; [done|]. simpl. by destruct (sep c).
Qed.

Lemma split_runs_skip (b s : str) :
  Forall (λ c, sep c) b → split_runs sep [] (b ++ s) = split_runs sep [] s.
Proof.
  induction 1 as [|c b Hc _ IH]; [done|]. simpl. by destruct (sep c).
Qed.

Lemma split_runs_trailing (s b : str) :
  Forall (λ c, sep c) b → split_runs sep [] (s ++ b) = split_runs sep [] s.
Proof.
  destruct 1 as [|c b Hc Hb]; [by rewrite app_nil_r|].
  rewrite split_runs_sep by done.
  rewrite (split_runs_all_sep b) by done. by rewrite app_nil_r.
Qed.

(** A text may be cut where a separator stands on either side. *)
Lemma split_runs_cut_before (s1 s2 : str) (c : ascii) :
  sep c →
  split_runs sep [] (s1 ++ c :: s2)
  = split_runs sep [] s1 ++ split_runs sep [] (c :: s2).
Proof.
  intros Hc. rewrite split_runs_sep by done. simpl. by destruct (sep c).
Qed.

Lemma split_runs_cut_after (s1 s2 : str) (c : ascii) :
  sep c →
  split_runs sep [] ((s1 ++ [c]) ++ s2)
  = split_runs sep [] (s1 ++ [c]) ++ split_runs sep [] s2.
Proof.
  intros Hc. rewrite <- app_assoc. simpl.
  rewrite !split_runs_sep by done. simpl. by rewrite app_nil_r.
Qed.

(** A run without separators is read into the current word. *)
Lemma split_runs_run (cur w s : str) :
  Forall (λ c, ¬ sep c) w →
  split_runs sep cur (w ++ s) = split_runs sep (rev w ++ cur) s.
Proof.
  intros Hw. revert cur. induction Hw as [|c w Hc _ IH]; intros cur; [done|].
  simpl. destruct (sep c); [done|].
  rewrite IH. by rewrite <- app_assoc.
Qed.

End split_runs.

(** *** Characters *)

Lemma whitespace_isspace (c : ascii) : textwrap.whitespace c → isspace c.
Proof. destruct c as [[] [] [] [] [] [] [] []]; vm_compute; tauto. Qed.

Lemma whitespace_not_hyphen (c : ascii) : textwrap.whitespace c → c ≠ textwrap.HYPHEN.
Proof. intros Hc ->. by vm_compute in Hc. Qed.

Lemma spaces_isspace (chunk : str) : spaces chunk → Forall (λ c, isspace c) chunk.
Proof.
  intros [_ H]. eapply Forall_impl; [exact H|]. apply whitespace_isspace.
Qed.

Lemma lstrip_nil (s : str) : lstrip s = [] → Forall (λ c, isspace c) s.
Proof.
  induction s as [|c s IH]; [constructor|]. simpl.
  destruct (isspace c) eqn:Hc; [|done].
  intros H. constructor; [by rewrite Hc|by apply IH].
Qed.

Lemma lstrip_head (s : str) :
  match lstrip s with c :: _ => ¬ isspace c | [] => True end.
Proof.
  induction s as [|c s IH]; [done|]. simpl.
  destruct (isspace c) eqn:Hc; [done|]. rewrite Hc. by intros [].
Qed.

(** [chunk.strip() == ''] says that the chunk holds whitespace only. *)
Lemma blank_isspace (chunk : str) :
  textwrap.blank chunk ↔ Forall (λ c, isspace c) chunk.
Proof.
  unfold textwrap.blank. rewrite bool_decide_spec. split; [|apply strip_isspace].
  unfold strip, rstrip. intros H.
  assert (lstrip (rev (lstrip chunk)) = []) as H'.
  { destruct (lstrip (rev (lstrip chunk))) as [|c l]; [done|].
    simpl in H. by apply app_eq_nil in H as [_ ?]. }
  clear H. apply lstrip_nil, Forall_rev in H'. rewrite rev_involutive in H'.
  rename H' into H.
  pose proof (lstrip_head chunk) as Hhead.
  destruct (lstrip chunk) as [|c s] eqn:Hl; [by apply lstrip_nil|].
  by apply Forall_cons in H as [? _].
Qed.

(** *** [_munge_whitespace] *)

Lemma tab_width (tabsize line_pos : nat) :
  (0 < tabsize)%nat → ∃ k, (tabsize - line_pos mod tabsize)%nat = S k.
Proof.
  intros H. pose proof (Nat.mod_upper_bound line_pos tabsize).
  exists (tabsize - line_pos mod tabsize - 1)%nat. lia.
Qed.

Section munge.

Variable sep : ascii → bool.
Hypothesis sep_whitespace : ∀ c, textwrap.whitespace c → sep c.

Lemma split_runs_translate (cur text : str) :
  split_runs sep cur (textwrap.translate text) = split_runs sep cur text.
Proof using sep_whitespace.
  revert cur. induction text as [|c text IH]; intros cur; [done|].
  unfold textwrap.translate in *. simpl.
  destruct (textwrap.whitespace c) eqn:Hc.
  - rewrite (Is_true_true_1 _ (sep_whitespace textwrap.SP I)).
    rewrite (Is_true_true_1 (sep c)) by (apply sep_whitespace; by rewrite Hc).
    by rewrite !IH.
  - destruct (sep c); by rewrite !IH.
Qed.

Lemma split_runs_spaces (cur : str) (k : nat) (s : str) :
  split_runs sep cur (replicate (S k) textwrap.SP ++ s)
  = split_runs sep cur [textwrap.SP] ++ split_runs sep [] s.
Proof using sep_whitespace.
  change (replicate (S k) textwrap.SP ++ s)
    with ([] ++ textwrap.SP :: (replicate k textwrap.SP ++ s)).
  rewrite split_runs_sep by by apply sep_whitespace.
  rewrite split_runs_skip.
  - simpl. rewrite (Is_true_true_1 _ (sep_whitespace textwrap.SP I)).
    by destruct cur.
  - apply Forall_replicate. by apply sep_whitespace.
Qed.

Lemma split_runs_expandtabs (tabsize line_pos : nat) (cur text : str) :
  (0 < tabsize)%nat →
  split_runs sep cur (textwrap.expandtabs_at tabsize line_pos text)
  = split_runs sep cur text.
Proof using sep_whitespace.
  intros Htab. revert line_pos cur.
  induction text as [|c text IH]; intros line_pos cur; [done|]. simpl.
  destruct (decide (c = textwrap.TAB)) as [->|Hc].
  - rewrite (proj2 (Nat.ltb_lt _ _) Htab).
    destruct (tab_width tabsize line_pos Htab) as [k ->].
    rewrite split_runs_spaces, IH. simpl.
    rewrite (Is_true_true_1 _ (sep_whitespace textwrap.SP I)).
    rewrite (Is_true_true_1 _ (sep_whitespace textwrap.TAB I)).
    by destruct cur.
  - simpl. destruct (sep c); by rewrite !IH.
Qed.

Lemma split_runs_munge (text : str) :
  split_runs sep [] (textwrap._munge_whitespace text) = split_runs sep [] text.
Proof using sep_whitespace.
  unfold textwrap._munge_whitespace, textwrap.expandtabs.
  rewrite split_runs_translate. apply split_runs_expandtabs. lia.
Qed.

End munge.

Lemma words_munge (text : str) : words (textwrap._munge_whitespace text) = words text.
Proof. apply split_runs_munge, whitespace_isspace. Qed.

Lemma tokens_munge (text : str) : tokens (textwrap._munge_whitespace text) = tokens text.
Proof. by apply split_runs_munge. Qed.

Lemma filter_isspace (s : str) :
  Forall (λ c, isspace c) s → filter (λ c, ¬ isspace c) s = [].
Proof.
  induction 1 as [|c s Hc _ IH]; [done|].
  rewrite filter_cons. by destruct (decide (¬ isspace c)).
Qed.

(** Munging changes whitespace only. *)
Lemma munge_characters_at (line_pos : nat) (text : str) :
  filter (λ c, ¬ isspace c) (textwrap.translate (textwrap.expandtabs_at 8 line_pos text))
  = filter (λ c, ¬ isspace c) text.
Proof.
  unfold textwrap.translate. revert line_pos.
  induction text as [|c text IH]; intros line_pos; [done|]. simpl.
  destruct (decide (c = textwrap.TAB)) as [->|Hc].
  - simpl. rewrite fmap_app, filter_app, IH.
    rewrite filter_isspace; [done|].
    apply Forall_fmap, Forall_replicate. done.
  - rewrite fmap_cons, !filter_cons, IH.
    destruct (textwrap.whitespace c) eqn:Hw; [|done].
    assert (isspace c) by (apply whitespace_isspace; by rewrite Hw).
    destruct (decide (¬ isspace textwrap.SP)) as [Hs|_]; [by destruct Hs|].
    by destruct (decide (¬ isspace c)).
Qed.

Lemma munge_characters (text : str) :
  filter (λ c, ¬ isspace c) (textwrap._munge_whitespace text)
  = filter (λ c, ¬ isspace c) text.
Proof. apply munge_characters_at. Qed.

Lemma munge_no_hyphen_at (line_pos : nat) (text : str) :
  textwrap.HYPHEN ∉ text →
  textwrap.HYPHEN ∉ textwrap.translate (textwrap.expandtabs_at 8 line_pos text).
Proof.
  unfold textwrap.translate. revert line_pos.
  induction text as [|c text IH]; intros line_pos Hh; simpl; [done|].
  apply not_elem_of_cons in Hh as [Hc Hh].
  destruct (decide (c = textwrap.TAB)) as [->|Ht]; simpl.
  - rewrite fmap_app, elem_of_app. intros [H|H]; [|by eapply IH].
    apply list_elem_of_fmap in H as (d & Heq & Hd).
    apply elem_of_replicate in Hd as [-> _]. by vm_compute in Heq.
  - rewrite elem_of_cons. intros [H|H]; [|by eapply IH].
    destruct (textwrap.whitespace c); [by vm_compute in H|]. by destruct Hc.
Qed.

Lemma munge_no_hyphen (text : str) :
  textwrap.HYPHEN ∉ text → textwrap.HYPHEN ∉ textwrap._munge_whitespace text.
Proof. apply munge_no_hyphen_at. Qed.

(** *** [_split] *)

Lemma whitespace_run_spec (rest : str) :
  (textwrap.whitespace_run rest).1 ++ (textwrap.whitespace_run rest).2 = rest
  ∧ Forall (λ c, textwrap.whitespace c) (textwrap.whitespace_run rest).1
  ∧ match (textwrap.whitespace_run rest).2 with
    | c :: _ => ¬ textwrap.whitespace c
    | [] => True
    end.
Proof.
  induction rest as [|c rest (IH1 & IH2 & IH3)]; simpl; [done|].
  destruct (textwrap.whitespace c) eqn:Hc.
  - destruct (textwrap.whitespace_run rest) as [w r]. simpl in *.
    split_and!; [by f_equal| |done]. constructor; [by rewrite Hc|done].
  - simpl. split_and!; [done|constructor|]. rewrite Hc. by intros [].
Qed.

Lemma skip_hyphens_spec (rest : str) :
  replicate (textwrap.skip_hyphens rest).1 textwrap.HYPHEN
    ++ (textwrap.skip_hyphens rest).2 = rest.
Proof.
  induction rest as [|c rest IH]; simpl; [done|].
  unfold textwrap.hyphen. case_bool_decide as Hc; [|done].
  destruct (textwrap.skip_hyphens rest) as [n r]. simpl in *. by rewrite IH, Hc.
Qed.

Lemma skip_hyphens_none (rest : str) :
  textwrap.HYPHEN ∉ rest → (textwrap.skip_hyphens rest).1 = 0%nat.
Proof.
  destruct rest as [|c rest]; [done|]. intros [Hc _]%not_elem_of_cons. simpl.
  unfold textwrap.hyphen. case_bool_decide; [by subst|done].
Qed.

Lemma ahead_emdash_none (rest : str) :
  textwrap.HYPHEN ∉ rest → textwrap.ahead_emdash rest = false.
Proof.
  intros H%skip_hyphens_none. unfold textwrap.ahead_emdash.
  destruct (textwrap.skip_hyphens rest) as [n r]. simpl in H. by subst n.
Qed.

Lemma word_spec (before : str) (c : ascii) (rest : str) :
  (textwrap.word before c rest).1 ++ (textwrap.word before c rest).2 = c :: rest
  ∧ (textwrap.word before c rest).1 ≠ [].
Proof.
  revert before c. induction rest as [|d rest IH]; intros before c; simpl; [done|].
  repeat (match goal with |- context [if ?b then _ else _] => destruct b end;
          simpl; try done).
  specialize (IH (c :: before) d).
  destruct (textwrap.word (c :: before) d rest) as [w r]. simpl in *.
  destruct IH as [-> _]. done.
Qed.

(** Without hyphens a word is a run of non-whitespace that ends where the
    text ends or whitespace begins. *)
Lemma word_no_hyphen (before : str) (c : ascii) (rest : str) :
  ¬ textwrap.whitespace c →
  textwrap.HYPHEN ∉ rest →
  Forall (λ x, ¬ textwrap.whitespace x) (textwrap.word before c rest).1
  ∧ match (textwrap.word before c rest).2 with
    | x :: _ => textwrap.whitespace x
    | [] => True
    end.
Proof.
  revert before c. induction rest as [|d rest IH]; intros before c Hc Hrest; simpl.
  { split; [by repeat constructor|done]. }
  pose proof Hrest as [Hd Hrest']%not_elem_of_cons.
  assert (textwrap.hyphen d = false) as ->.
  { unfold textwrap.hyphen. case_bool_decide; [by subst|done]. }
  simpl. destruct (textwrap.whitespace d) eqn:Hwd; simpl.
  { split; [by repeat constructor|]. by rewrite Hwd. }
  rewrite (ahead_emdash_none (d :: rest)) by done. rewrite andb_false_r.
  specialize (IH (c :: before) d).
  destruct (textwrap.word (c :: before) d rest) as [w r]. simpl in *.
  destruct IH as [IH1 IH2]; [rewrite Hwd; by intros []|done|].
  split; [by constructor|done].
Qed.

Lemma wordsep_match_spec (before : str) (c : ascii) (rest : str) :
  (textwrap.wordsep_match before c rest).1 ++ (textwrap.wordsep_match before c rest).2
  = c :: rest
  ∧ (textwrap.wordsep_match before c rest).1 ≠ [].
Proof.
  unfold textwrap.wordsep_match.
  destruct (textwrap.whitespace c) eqn:Hc.
  - destruct (whitespace_run_spec (c :: rest)) as (H1 & _ & _).
    split; [done|]. simpl. rewrite Hc.
    by destruct (textwrap.whitespace_run rest).
  - match goal with |- context [if ?b then _ else _] => destruct b eqn:Hb end.
    + apply andb_prop in Hb as [_ Hb]. unfold textwrap.ahead_emdash in Hb.
      pose proof (skip_hyphens_spec (c :: rest)) as Hs.
      destruct (textwrap.skip_hyphens (c :: rest)) as [n r]. simpl in *.
      split; [done|]. apply andb_prop in Hb as [Hn _].
      by destruct n.
    + apply word_spec.
Qed.

(** The chunks of the scan make up the text, and none is empty. *)
Lemma split_at_concat (fuel : nat) (before text : str) :
  (length text ≤ fuel)%nat →
  concat (textwrap.split_at fuel before text) = text
  ∧ Forall (λ chunk, chunk ≠ []) (textwrap.split_at fuel before text).
Proof.
  revert before text. induction fuel as [|fuel IH]; intros before text Hfuel.
  { destruct text; [done|simpl in Hfuel; lia]. }
  destruct text as [|c rest]; [done|]. simpl.
  destruct (wordsep_match_spec before c rest) as [Heq Hne].
  destruct (textwrap.wordsep_match before c rest) as [chunk text']. simpl in *.
  destruct (IH (rev chunk ++ before) text') as [IH1 IH2].
  { apply (f_equal length) in Heq. rewrite length_app in Heq. simpl in Heq.
    destruct chunk; [done|]. simpl in Heq. lia. }
  split; [by rewrite IH1|by constructor].
Qed.

Lemma filter_nonempty (chunks : list str) :
  Forall (λ chunk, chunk ≠ []) chunks → filter (λ c, c ≠ []) chunks = chunks.
Proof.
  induction 1 as [|c chunks Hc _ IH]; [done|].
  rewrite filter_cons, IH. by destruct (decide (c ≠ [])).
Qed.

Lemma _split_scan (text : str) :
  textwrap._split text = textwrap.split_at (length text) [] text.
Proof.
  unfold textwrap._split. apply filter_nonempty.
  by apply split_at_concat.
Qed.

Lemma _split_concat (text : str) : concat (textwrap._split text) = text.
Proof. rewrite _split_scan. by apply split_at_concat. Qed.

Lemma wordsep_match_no_hyphen (before : str) (c : ascii) (rest : str) :
  textwrap.HYPHEN ∉ c :: rest →
  (spaces (textwrap.wordsep_match before c rest).1
   ∧ match (textwrap.wordsep_match before c rest).2 with
     | x :: _ => ¬ textwrap.whitespace x
     | [] => True
     end)
  ∨ (Forall (λ x, ¬ textwrap.whitespace x) (textwrap.wordsep_match before c rest).1
     ∧ match (textwrap.wordsep_match before c rest).2 with
       | x :: _ => textwrap.whitespace x
       | [] => True
       end).
Proof.
  intros Hh. pose proof (wordsep_match_spec before c rest) as [_ Hne].
  revert Hne. unfold textwrap.wordsep_match.
  destruct (textwrap.whitespace c) eqn:Hc.
  - intros Hne. left.
    destruct (whitespace_run_spec (c :: rest)) as (_ & H2 & H3). by split.
  - rewrite (ahead_emdash_none (c :: rest)) by done. rewrite andb_false_r.
    intros _. right. apply not_elem_of_cons in Hh as [_ Hh].
    apply word_no_hyphen; [|done]. rewrite Hc. by intros [].
Qed.

Lemma tokens_after_spaces (chunk text : str) :
  spaces chunk → tokens (chunk ++ text) = tokens text.
Proof. intros [_ H]. by apply split_runs_skip. Qed.

Lemma tokens_after_word (chunk text : str) :
  chunk ≠ [] →
  Forall (λ x, ¬ textwrap.whitespace x) chunk →
  match text with x :: _ => textwrap.whitespace x | [] => True end →
  tokens (chunk ++ text) = chunk :: tokens text.
Proof.
  intros Hne Hw Htext. unfold tokens. rewrite split_runs_run by done.
  rewrite app_nil_r.
  assert (rev chunk ≠ []) as Hrev.
  { intros H. apply (f_equal (@length ascii)) in H. rewrite length_rev in H.
    by destruct chunk. }
  destruct text as [|x text]; simpl.
  - destruct (rev chunk) eqn:Hr; [done|]. by rewrite <- Hr, rev_involutive.
  - rewrite (Is_true_true_1 _ Htext).
    destruct (rev chunk) eqn:Hr; [done|]. by rewrite <- Hr, rev_involutive.
Qed.

(** Without hyphens the chunks are runs of whitespace and tokens of the
    text in turn. *)
Lemma split_at_no_hyphen (fuel : nat) (before text : str) :
  (length text ≤ fuel)%nat →
  textwrap.HYPHEN ∉ text →
  separated (textwrap.split_at fuel before text)
  ∧ Forall (λ x, spaces x ∨ x ∈ tokens text) (textwrap.split_at fuel before text)
  ∧ match text, textwrap.split_at fuel before text with
    | c :: _, x :: _ => textwrap.whitespace c → spaces x
    | _, _ => True
    end.
Proof.
  revert before text. induction fuel as [|fuel IH]; intros before text Hfuel Hh.
  { destruct text; simpl; by split_and!. }
  destruct text as [|c rest]; [simpl; by split_and!|].
  cbn [textwrap.split_at].
  destruct (wordsep_match_spec before c rest) as [Heq Hne].
  pose proof (wordsep_match_no_hyphen before c rest Hh) as Hkind.
  destruct (textwrap.wordsep_match before c rest) as [chunk text']. simpl in *.
  assert (length text' ≤ fuel)%nat as Hfuel'.
  { apply (f_equal length) in Heq. rewrite length_app in Heq. simpl in Heq.
    destruct chunk; [done|]. simpl in Heq. lia. }
  assert (textwrap.HYPHEN ∉ text') as Hh'.
  { intros H. apply Hh. rewrite <- Heq. apply elem_of_app. by right. }
  destruct (IH (rev chunk ++ before) text' Hfuel' Hh') as (IH1 & IH2 & IH3).
  rewrite <- Heq.
  destruct Hkind as [[Hsp Hnext]|[Hword Hnext]].
  - rewrite tokens_after_spaces by done. split_and!.
    + destruct (textwrap.split_at fuel _ text'); [done|]. split; [by left|done].
    + constructor; [by left|done].
    + destruct chunk; [done|]. done.
  - rewrite tokens_after_word by done. split_and!.
    + destruct text' as [|x text'].
      { by destruct fuel. }
      destruct (textwrap.split_at fuel _ (x :: text')); [done|].
      split; [right; by apply IH3|done].
    + constructor; [right; by left|].
      eapply Forall_impl; [exact IH2|]. intros y [Hy|Hy]; [by left|].
      right. by right.
    + destruct chunk as [|y chunk]; [done|]. injection Heq as -> _.
      apply Forall_cons in Hword as [Hy _]. intros Hc. by destruct Hy.
Qed.

(** *** [_wrap_chunks] *)

Lemma fill_line_spec (width : nat) (chunks cur_line : list str) (cur_len : nat) :
  ∃ taken rest,
    textwrap.fill_line width chunks cur_line cur_len
    = (rest, cur_line ++ taken, (cur_len + length (concat taken))%nat)
    ∧ chunks = taken ++ rest
    ∧ (taken = [] ∨ cur_len + length (concat taken) ≤ width)%nat
    ∧ match rest with
      | c :: _ => (width < cur_len + length (concat taken) + length c)%nat
      | [] => True
      end.
Proof.
  revert cur_line cur_len.
  induction chunks as [|c chunks IH]; intros cur_line cur_len; simpl.
  { exists [], []. rewrite app_nil_r, Nat.add_0_r. split_and!; by auto. }
  destruct (cur_len + length c <=? width)%nat eqn:Hfit.
  - apply Nat.leb_le in Hfit.
    destruct (IH (cur_line ++ [c]) (cur_len + length c)%nat)
      as (taken & rest & -> & -> & Hlen & Hrest).
    exists (c :: taken), rest. simpl. rewrite length_app, <- app_assoc. simpl.
    rewrite !Nat.add_assoc in *. split_and!; [done|done| |done].
    right. destruct Hlen as [->|?]; simpl; lia.
  - apply Nat.leb_gt in Hfit. exists [], (c :: chunks).
    rewrite app_nil_r. simpl. rewrite Nat.add_0_r. split_and!; by auto.
Qed.

Lemma rfind_from_bound (c : ascii) (i : nat) (s : str) (stop j : nat) :
  rfind_from c i s stop = Some j → (i ≤ j < i + stop)%nat.
Proof.
  revert i stop. induction s as [|d s IH]; intros i stop; simpl; [by destruct stop|].
  destruct stop as [|stop]; [done|].
  destruct (rfind_from c (S i) s stop) as [k|] eqn:Hk.
  - intros [= ->]. apply IH in Hk. lia.
  - destruct (decide (d = c)); [|done]. intros [= ->]. lia.
Qed.

Lemma rfind_from_none (c : ascii) (i : nat) (s : str) (stop : nat) :
  c ∉ s → rfind_from c i s stop = None.
Proof.
  revert i stop. induction s as [|d s IH]; intros i stop Hc; simpl; [by destruct stop|].
  destruct stop as [|stop]; [done|].
  apply not_elem_of_cons in Hc as [Hd Hc]. rewrite IH by done.
  by destruct (decide (d = c)).
Qed.

(** The long chunk is cut at [end_]: no further than the room left on the
    line, and somewhere past its start when the line is still empty. *)
Lemma _handle_long_word_spec (chunk : str) (chunks cur_line : list str)
    (cur_len width : nat) :
  (0 < width)%nat →
  ∃ end_,
    textwrap._handle_long_word chunk chunks cur_line cur_len width
    = (drop end_ chunk :: chunks, cur_line ++ [take end_ chunk])
    ∧ (end_ ≤ width - cur_len)%nat
    ∧ (cur_len = 0%nat → 0 < end_)%nat
    ∧ (textwrap.HYPHEN ∉ chunk → end_ = width - cur_len)%nat.
Proof.
  intros Hwidth. unfold textwrap._handle_long_word.
  destruct (width <? 1)%nat eqn:Hw; [apply Nat.ltb_lt in Hw; lia|].
  eexists. split; [reflexivity|].
  destruct (width - cur_len <? length chunk)%nat; [|split_and!; by (done || lia)].
  unfold rfind.
  destruct (rfind_from textwrap.HYPHEN 0 chunk (width - cur_len)) as [h|] eqn:Hh;
    [|split_and!; by (done || lia)].
  pose proof (rfind_from_bound _ _ _ _ _ Hh).
  split_and!.
  - match goal with |- context [if ?b then _ else _] => destruct b end; lia.
  - match goal with |- context [if ?b then _ else _] => destruct b end; lia.
  - intros Hno. by rewrite rfind_from_none in Hh.
Qed.

Lemma drop_trailing_spec (cur_line : list str) :
  ∃ tail,
    cur_line = textwrap.drop_trailing cur_line ++ tail
    ∧ Forall (λ c, textwrap.blank c) tail.
Proof.
  unfold textwrap.drop_trailing.
  destruct cur_line as [|c cur_line _] using rev_ind.
  { by exists []. }
  rewrite last_snoc. destruct (textwrap.blank c) eqn:Hc.
  - exists [c]. rewrite removelast_last. split; [done|].
    constructor; [by rewrite Hc|done].
  - exists []. by rewrite app_nil_r.
Qed.

(** One round of the outer loop: a blank chunk may be dropped at the head
    of a line that is not the first, chunks are taken while they fit, a
    chunk too long for any line is cut, and a blank chunk at the end of the
    line is dropped. *)
Lemma wrap_line_cases (width : nat) (chunks lines : list str) :
  (0 < width)%nat →
  ∃ lead taken rest cur_line chunks',
    chunks = lead ++ taken ++ rest
    ∧ (lead = [] ∨ lines ≠ [] ∧ ∃ c, lead = [c] ∧ textwrap.blank c)
    ∧ (length (concat taken) ≤ width)%nat
    ∧ (cur_line = taken ∧ chunks' = rest
         ∧ (taken = [] → rest = [])
       ∨ ∃ c rest' end_,
           rest = c :: rest' ∧ (width < length c)%nat
           ∧ (end_ ≤ width - length (concat taken))%nat
           ∧ (taken = [] → 0 < end_)%nat
           ∧ (textwrap.HYPHEN ∉ c → end_ = width - length (concat taken))%nat
           ∧ cur_line = taken ++ [take end_ c]
           ∧ chunks' = drop end_ c :: rest')
    ∧ textwrap.wrap_line width chunks lines
      = (chunks',
         match textwrap.drop_trailing cur_line with
         | [] => lines
         | _ => lines ++ [concat (textwrap.drop_trailing cur_line)]
         end).
Proof.
  intros Hwidth. unfold textwrap.wrap_line.
  set (chunks1 := match chunks with
                  | chunk :: chunks' =>
                      if textwrap.blank chunk && bool_decide (lines ≠ [])
                      then chunks' else chunks
                  | [] => chunks
                  end).
  assert (∃ lead, chunks = lead ++ chunks1
            ∧ (lead = [] ∨ lines ≠ [] ∧ ∃ c, lead = [c] ∧ textwrap.blank c))
    as (lead & Hlead & Hblank).
  { subst chunks1. destruct chunks as [|c chunks]; [exists []; by auto|].
    destruct (textwrap.blank c) eqn:Hc; simpl; [|exists []; by auto].
    case_bool_decide as Hl; [|exists []; by auto].
    exists [c]. split; [done|]. right. split; [done|]. exists c. by rewrite Hc. }
  destruct (fill_line_spec width chunks1 [] 0)
    as (taken & rest & -> & Hchunks & Hlen & Hrest).
  simpl in Hlen, Hrest. cbn [app Nat.add]. exists lead, taken.
  assert (length (concat taken) ≤ width)%nat as Hlen'.
  { destruct Hlen as [->|?]; simpl; lia. }
  destruct rest as [|c rest'].
  { exists [], taken, []. split_and!; [by rewrite Hlead, Hchunks|done|done| |done].
    left. by auto. }
  destruct (width <? length c)%nat eqn:Hlong.
  - apply Nat.ltb_lt in Hlong.
    destruct (_handle_long_word_spec c rest' taken (length (concat taken)) width Hwidth)
      as (end_ & -> & He1 & He2 & He3).
    exists (c :: rest'), (taken ++ [take end_ c]), (drop end_ c :: rest').
    split_and!; [by rewrite Hlead, Hchunks|done|done| |done].
    right. exists c, rest', end_. split_and!; try done.
    intros ->. by apply He2.
  - apply Nat.ltb_ge in Hlong.
    exists (c :: rest'), taken, (c :: rest').
    split_and!; [by rewrite Hlead, Hchunks|done|done| |done].
    left. split_and!; [done|done|]. intros ->. simpl in Hrest. lia.
Qed.

Lemma rounds_app (a b : list str) : rounds (a ++ b) = (rounds a + rounds b)%nat.
Proof. unfold rounds. rewrite concat_app, !length_app. lia. Qed.

Lemma rounds_cons (c : str) (l : list str) :
  rounds (c :: l) = (S (length c) + rounds l)%nat.
Proof. unfold rounds. simpl. rewrite length_app. lia. Qed.

Lemma rounds_nil (chunks : list str) : rounds chunks = 0%nat → chunks = [].
Proof. by destruct chunks. Qed.

(** Every round takes something off the stack. *)
Lemma wrap_line_progress (width : nat) (chunks lines : list str) :
  (0 < width)%nat → chunks ≠ [] →
  (rounds (textwrap.wrap_line width chunks lines).1 < rounds chunks)%nat.
Proof.
  intros Hwidth Hne.
  destruct (wrap_line_cases width chunks lines Hwidth)
    as (lead & taken & rest & cur_line & chunks' & -> & _ & _ & Hcase & ->).
  simpl. rewrite !rounds_app.
  destruct Hcase as [(_ & -> & Hrest)|
    (c & rest' & end_ & -> & Hlong & _ & Hend & _ & _ & ->)].
  - destruct taken as [|t taken].
    + rewrite Hrest in * by done. destruct lead; [done|].
      rewrite rounds_cons. simpl. lia.
    + rewrite rounds_cons. lia.
  - rewrite !rounds_cons, length_drop.
    destruct taken as [|t taken].
    + specialize (Hend eq_refl). lia.
    + rewrite rounds_cons. lia.
Qed.

(** What every round keeps holds when the loop is over, and the loop is
    over with the stack empty: the rounds allotted are enough. *)
Lemma wrap_lines_invariant (Inv : list str → list str → Prop) (width : nat) :
  (0 < width)%nat →
  (∀ chunks lines, chunks ≠ [] → Inv chunks lines →
     Inv (textwrap.wrap_line width chunks lines).1
         (textwrap.wrap_line width chunks lines).2) →
  ∀ fuel chunks lines,
    (rounds chunks ≤ fuel)%nat → Inv chunks lines →
    Inv [] (textwrap.wrap_lines fuel width chunks lines).
Proof.
  intros Hwidth Hstep fuel.
  induction fuel as [|fuel IH]; intros chunks lines Hfuel Hinv.
  { rewrite (rounds_nil chunks) in * by lia. done. }
  destruct chunks as [|c chunks]; [done|].
  cbn [textwrap.wrap_lines].
  pose proof (wrap_line_progress width (c :: chunks) lines Hwidth) as Hprogress.
  pose proof (Hstep (c :: chunks) lines) as Hinv'.
  destruct (textwrap.wrap_line width (c :: chunks) lines) as [chunks' lines'].
  simpl in *. apply IH; [|by apply Hinv'].
  specialize (Hprogress ltac:(done)). lia.
Qed.

Lemma concat_drop_trailing (cur_line : list str) :
  ∃ tail, concat cur_line = concat (textwrap.drop_trailing cur_line) ++ tail
    ∧ Forall (λ c, isspace c) tail.
Proof.
  destruct (drop_trailing_spec cur_line) as (tail & Heq & Hblank).
  exists (concat tail). split; [by rewrite Heq at 1; rewrite concat_app|].
  apply Forall_concat. eapply Forall_impl; [exact Hblank|].
  intros c. apply blank_isspace.
Qed.

(** No line is longer than the width. *)
Lemma wrap_line_width (width : nat) (chunks lines : list str) :
  (0 < width)%nat →
  Forall (λ l, length l ≤ width)%nat lines →
  Forall (λ l, length l ≤ width)%nat (textwrap.wrap_line width chunks lines).2.
Proof.
  intros Hwidth Hlines.
  destruct (wrap_line_cases width chunks lines Hwidth)
    as (lead & taken & rest & cur_line & chunks' & _ & _ & Hlen & Hcase & ->).
  simpl.
  assert (length (concat cur_line) ≤ width)%nat as Hcur.
  { destruct Hcase as [(-> & _)|(c & rest' & end_ & _ & _ & Hend & _ & _ & -> & _)];
      [done|].
    rewrite concat_app, length_app. simpl.
    rewrite app_nil_r, length_take. lia. }
  destruct (concat_drop_trailing cur_line) as (tail & Heq & _).
  apply (f_equal length) in Heq. rewrite length_app in Heq.
  destruct (textwrap.drop_trailing cur_line); [done|].
  apply Forall_app. split; [done|]. constructor; [lia|done].
Qed.

Lemma filter_concat_blank (chunks : list str) :
  Forall (λ c, textwrap.blank c) chunks →
  filter (λ c, ¬ isspace c) (concat chunks) = [].
Proof.
  intros H. apply filter_isspace, Forall_concat.
  eapply Forall_impl; [exact H|]. intros c. apply blank_isspace.
Qed.

(** A round moves characters from the stack to the lines and loses
    whitespace only. *)
Lemma wrap_line_characters (width : nat) (chunks lines : list str) :
  (0 < width)%nat →
  filter (λ c, ¬ isspace c)
    (concat (textwrap.wrap_line width chunks lines).2
     ++ concat (textwrap.wrap_line width chunks lines).1)
  = filter (λ c, ¬ isspace c) (concat lines ++ concat chunks).
Proof.
  intros Hwidth.
  destruct (wrap_line_cases width chunks lines Hwidth)
    as (lead & taken & rest & cur_line & chunks' & -> & Hlead & _ & Hcase & ->).
  simpl.
  destruct (concat_drop_trailing cur_line) as (tail & Heq & Htail).
  assert (filter (λ c, ¬ isspace c) (concat lead) = []) as Hlead'.
  { destruct Hlead as [->|(_ & c & -> & Hc)]; [done|].
    apply filter_concat_blank. by constructor. }
  assert (filter (λ c, ¬ isspace c)
            (concat match textwrap.drop_trailing cur_line with
                    | [] => lines
                    | _ => lines ++ [concat (textwrap.drop_trailing cur_line)]
                    end)
          = filter (λ c, ¬ isspace c) (concat lines ++ concat cur_line)) as Hlines.
  { rewrite Heq, !filter_app, (filter_isspace tail), app_nil_r by done.
    destruct (textwrap.drop_trailing cur_line) as [|x l] eqn:Hd; simpl.
    - by rewrite app_nil_r.
    - by rewrite concat_app, filter_app; simpl; rewrite app_nil_r. }
  rewrite filter_app, Hlines. clear Hlines Heq.
  destruct Hcase as [(-> & -> & _)|(c & rest' & end_ & -> & _ & _ & _ & _ & -> & ->)].
  - rewrite !concat_app, !filter_app, Hlead'. by rewrite <- app_assoc.
  - rewrite !concat_app, !concat_cons, concat_nil, app_nil_r.
    rewrite !filter_app, Hlead'. cbn [app].
    assert (filter (λ c, ¬ isspace c) c
            = filter (λ c, ¬ isspace c) (take end_ c)
              ++ filter (λ c, ¬ isspace c) (drop end_ c)) as Hc.
    { by rewrite <- filter_app, take_drop. }
    rewrite Hc. by rewrite <- !app_assoc.
Qed.

(** *** Words *)

Lemma separated_app_r (a b : list str) : separated (a ++ b) → separated b.
Proof.
  induction a as [|x a IH]; [done|]. simpl.
  destruct (a ++ b) eqn:Hab; [|by intros [_ ?]; apply IH].
  intros _. apply app_eq_nil in Hab as [_ ->]. done.
Qed.

Lemma separated_boundary (a : list str) (x y : str) (b : list str) :
  separated (a ++ x :: y :: b) → spaces x ∨ spaces y.
Proof. intros H%separated_app_r. by destruct H. Qed.

Lemma separated_cons (x : str) (chunks : list str) :
  spaces x → separated chunks → separated (x :: chunks).
Proof. intros Hx Hchunks. destruct chunks; [done|]. split; [by left|done]. Qed.

Lemma words_skip (b s : str) : Forall (λ c, isspace c) b → words (b ++ s) = words s.
Proof. apply split_runs_skip. Qed.

Lemma words_trailing (s b : str) : Forall (λ c, isspace c) b → words (s ++ b) = words s.
Proof. apply split_runs_trailing. Qed.

Lemma words_cut_before (s1 s2 : str) :
  match s2 with c :: _ => isspace c | [] => True end →
  words (s1 ++ s2) = words s1 ++ words s2.
Proof.
  destruct s2 as [|c s2]; intros Hc.
  - by rewrite !app_nil_r.
  - by apply split_runs_cut_before.
Qed.

Lemma words_cut_after (s1 s2 : str) (c : ascii) :
  isspace c → words ((s1 ++ [c]) ++ s2) = words (s1 ++ [c]) ++ words s2.
Proof. apply split_runs_cut_after. Qed.

(** The words of the chunks may be read on either side of a place where two
    chunks meet, one of them being whitespace. *)
Lemma words_concat_cut (a b : list str) :
  separated (a ++ b) →
  words (concat (a ++ b)) = words (concat a) ++ words (concat b).
Proof.
  intros Hsep. rewrite concat_app.
  destruct b as [|y b]; [by rewrite !app_nil_r|].
  destruct a as [|x a _] using rev_ind; [done|].
  rewrite <- app_assoc in Hsep. simpl in Hsep.
  destruct (separated_boundary _ _ _ _ Hsep) as [[Hne Hx]|[Hne Hy]].
  - destruct x as [|c x _] using rev_ind; [done|].
    apply Forall_app in Hx as [_ [Hc%whitespace_isspace _]%Forall_cons].
    rewrite concat_app. simpl. rewrite app_nil_r, (app_assoc (concat a) x [c]).
    by apply words_cut_after.
  - apply words_cut_before. destruct y as [|c y]; [done|]. simpl.
    apply Forall_cons in Hy as [Hc _]. by apply whitespace_isspace.
Qed.

Lemma words_join (lines : list str) :
  words (join (lit " ") lines) = concat (words <$> lines).
Proof.
  induction lines as [|x lines IH]; [done|].
  destruct lines as [|y lines].
  - simpl. by rewrite app_nil_r.
  - change (join (lit " ") (x :: y :: lines))
      with (x ++ " "%char :: join (lit " ") (y :: lines)).
    unfold words in *. rewrite split_runs_sep by done. by rewrite IH.
Qed.

Lemma spaces_take_drop (end_ : nat) (c : str) :
  spaces c → (end_ < length c)%nat →
  Forall (λ x, isspace x) (take end_ c) ∧ spaces (drop end_ c).
Proof.
  intros [_ Hc] Hend. split.
  - apply Forall_take. eapply Forall_impl; [exact Hc|]. apply whitespace_isspace.
  - split; [|by apply Forall_drop].
    intros H. apply (f_equal length) in H. rewrite length_drop in H.
    simpl in H. lia.
Qed.

(** A round over chunks that are whitespace and words in turn, no word
    longer than the width, moves whole words from the stack to the
    lines. *)
Lemma wrap_line_words (width : nat) (chunks lines : list str) :
  (0 < width)%nat →
  separated chunks →
  Forall (λ c, spaces c ∨ length c ≤ width)%nat chunks →
  separated (textwrap.wrap_line width chunks lines).1
  ∧ Forall (λ c, spaces c ∨ length c ≤ width)%nat (textwrap.wrap_line width chunks lines).1
  ∧ concat (words <$> (textwrap.wrap_line width chunks lines).2)
      ++ words (concat (textwrap.wrap_line width chunks lines).1)
    = concat (words <$> lines) ++ words (concat chunks).
Proof.
  intros Hwidth Hsep Hlen.
  destruct (wrap_line_cases width chunks lines Hwidth)
    as (lead & taken & rest & cur_line & chunks' & -> & Hlead & _ & Hcase & ->).
  simpl.
  destruct (concat_drop_trailing cur_line) as (tail & Heq & Htail).
  assert (concat (words <$> match textwrap.drop_trailing cur_line with
                            | [] => lines
                            | _ => lines ++ [concat (textwrap.drop_trailing cur_line)]
                            end)
          = concat (words <$> lines) ++ words (concat cur_line)) as ->.
  { rewrite Heq, words_trailing by done.
    destruct (textwrap.drop_trailing cur_line) as [|x l] eqn:Hd.
    - simpl. by rewrite app_nil_r.
    - rewrite fmap_app, concat_app. simpl. by rewrite app_nil_r. }
  assert (words (concat (lead ++ taken ++ rest)) = words (concat (taken ++ rest)))
    as ->.
  { destruct Hlead as [->|(_ & c & -> & Hc)]; [done|]. simpl.
    apply words_skip. by apply blank_isspace. }
  apply separated_app_r in Hsep. apply Forall_app in Hlen as [_ Hlen].
  destruct Hcase as [(-> & -> & _)|(c & rest' & end_ & -> & Hlong & Hend & _ & _ & -> & ->)].
  - split_and!; [by eapply separated_app_r|by apply Forall_app in Hlen as [_ ?]|].
    rewrite <- app_assoc. f_equal. symmetry. by apply words_concat_cut.
  - pose proof Hlen as [_ [[Hc|Hc] Hrest]%Forall_cons]%Forall_app; [|lia].
    destruct (spaces_take_drop end_ c Hc) as [Htake Hdrop]; [lia|].
    split_and!.
    + apply separated_cons; [done|].
      apply separated_app_r in Hsep. by apply (separated_app_r [c]).
    + constructor; [by left|done].
    + rewrite <- app_assoc. f_equal.
      rewrite !concat_app, !concat_cons, concat_nil, app_nil_r.
      rewrite <- (take_drop end_ c) at 3.
      rewrite <- !app_assoc, (app_assoc (concat taken)).
      symmetry. apply words_cut_before.
      destruct Hdrop as [Hne Hd]. destruct (drop end_ c) as [|d s]; [done|].
      simpl. apply Forall_cons in Hd as [Hd _]. by apply whitespace_isspace.
Qed.

(** *** [wrap] *)

Lemma wrap_unfold (text : str) (width : nat) :
  (0 < width)%nat →
  textwrap.wrap text width
  = Ok (textwrap.wrap_lines (rounds (textwrap._split_chunks text)) width
          (textwrap._split_chunks text) []).
Proof.
  intros Hwidth. unfold textwrap.wrap, textwrap._wrap_chunks.
  destruct (width <=? 0)%nat eqn:Hw; [apply Nat.leb_le in Hw; lia|done].
Qed.

Lemma wrap_lines_width (width : nat) (chunks : list str) :
  (0 < width)%nat →
  Forall (λ l, length l ≤ width)%nat
    (textwrap.wrap_lines (rounds chunks) width chunks []).
Proof.
  intros Hwidth.
  apply (wrap_lines_invariant (λ _ lines, Forall (λ l, length l ≤ width)%nat lines));
    [done| |done|done].
  intros chunks' lines _. by apply wrap_line_width.
Qed.

Lemma wrap_lines_characters (width : nat) (chunks : list str) :
  (0 < width)%nat →
  filter (λ c, ¬ isspace c) (concat (textwrap.wrap_lines (rounds chunks) width chunks []))
  = filter (λ c, ¬ isspace c) (concat chunks).
Proof.
  intros Hwidth.
  enough (filter (λ c, ¬ isspace c)
            (concat (textwrap.wrap_lines (rounds chunks) width chunks []) ++ concat [])
          = filter (λ c, ¬ isspace c) (concat chunks)) as H.
  { simpl in H. by rewrite app_nil_r in H. }
  apply (wrap_lines_invariant
    (λ chunks' lines,
       filter (λ c, ¬ isspace c) (concat lines ++ concat chunks')
       = filter (λ c, ¬ isspace c) (concat chunks)));
    [done| |done|done].
  intros chunks' lines _ <-. by apply wrap_line_characters.
Qed.

Lemma wrap_lines_words (width : nat) (chunks : list str) :
  (0 < width)%nat →
  separated chunks →
  Forall (λ c, spaces c ∨ length c ≤ width)%nat chunks →
  concat (words <$> textwrap.wrap_lines (rounds chunks) width chunks [])
  = words (concat chunks).
Proof.
  intros Hwidth Hsep Hlen.
  enough (separated []
          ∧ Forall (λ c, spaces c ∨ length c ≤ width)%nat []
          ∧ concat (words <$> textwrap.wrap_lines (rounds chunks) width chunks [])
              ++ words (concat []) = words (concat chunks)) as (_ & _ & H).
  { simpl in H. by rewrite app_nil_r in H. }
  apply (wrap_lines_invariant
    (λ chunks' lines,
       separated chunks'
       ∧ Forall (λ c, spaces c ∨ length c ≤ width)%nat chunks'
       ∧ concat (words <$> lines) ++ words (concat chunks') = words (concat chunks)));
    [done| |done|done].
  intros chunks' lines _ (Hsep' & Hlen' & <-). by apply wrap_line_words.
Qed.

(** Without hyphens the chunks to wrap are runs of whitespace and tokens of
    the text in turn. *)
Lemma _split_chunks_no_hyphen (text : str) (width : nat) :
  textwrap.HYPHEN ∉ text →
  Forall (λ w, length w ≤ width)%nat (tokens text) →
  separated (textwrap._split_chunks text)
  ∧ Forall (λ c, spaces c ∨ length c ≤ width)%nat (textwrap._split_chunks text).
Proof.
  intros Hh%munge_no_hyphen Htokens. rewrite <- tokens_munge in Htokens.
  unfold textwrap._split_chunks. rewrite _split_scan.
  destruct (split_at_no_hyphen (length (textwrap._munge_whitespace text)) []
              (textwrap._munge_whitespace text)) as (Hsep & Hchunks & _); [done|done|].
  split; [done|]. eapply Forall_impl; [exact Hchunks|].
  intros c [Hc|Hc]; [by left|right]. by eapply Forall_forall in Htokens.
Qed.

(** C2, as the claim has it, fails twice.  A word with a hyphen is broken
    after the hyphen although it is far shorter than 250 characters, and
    the chunks joined with single spaces then hold a space the text does
    not.  A word longer than 250 characters is cut, and again the join
    does not give the text back. *)
Lemma hyphenated_word_is_broken :
  let text := replicate 246 "a"%char ++ lit " bb-cc" in
  let chunks := [replicate 246 "a"%char ++ lit " bb-"; lit "cc"] in
  let long := replicate 251 "a"%char in
  words text = [replicate 246 "a"%char; lit "bb-cc"]
  ∧ textwrap.wrap text 250 = Ok chunks
  ∧ concat (words <$> chunks) ≠ words text
  ∧ normalize (join (lit " ") chunks) ≠ normalize text
  ∧ textwrap.wrap long 250 = Ok [replicate 250 "a"%char; lit "a"]
  ∧ normalize (join (lit " ") [replicate 250 "a"%char; lit "a"]) ≠ normalize long.
Proof.
  split_and!.
  - vm_compute. reflexivity.
  - vm_compute. reflexivity.
  - apply (bool_decide_eq_false_1 _). vm_compute. reflexivity.
  - apply (bool_decide_eq_false_1 _). vm_compute. reflexivity.
  - vm_compute. reflexivity.
  - apply (bool_decide_eq_false_1 _). vm_compute. reflexivity.
Qed.

(** C2, amended.  For every text the split returns chunks of at most 250
    characters each that keep the order of the text: the characters of the
    chunks that are not whitespace are those of the text, one after the
    other.  If the text holds no hyphen and no run of it between
    whitespace is longer than 250 characters, the text is broken at
    whitespace only (every chunk is made of whole words of the text, each
    word in one chunk) and the chunks joined with single spaces are the
    text up to whitespace normalization. *)
Theorem wrap_250_chunks (text : str) :
  ∃ chunks, textwrap.wrap text 250 = Ok chunks
    ∧ Forall (λ chunk, length chunk ≤ 250)%nat chunks
    ∧ filter (λ c, ¬ isspace c) (concat chunks) = filter (λ c, ¬ isspace c) text
    ∧ (textwrap.HYPHEN ∉ text →
       Forall (λ w, length w ≤ 250)%nat (tokens text) →
       concat (words <$> chunks) = words text
       ∧ normalize (join (lit " ") chunks) = normalize text).
Proof.
  assert (0 < 250)%nat as Hwidth by lia.
  eexists. split; [by apply wrap_unfold|]. split_and!.
  - by apply wrap_lines_width.
  - rewrite wrap_lines_characters by done.
    unfold textwrap._split_chunks. by rewrite _split_concat, munge_characters.
  - intros Hh Htokens.
    destruct (_split_chunks_no_hyphen text 250 Hh Htokens) as [Hsep Hlen].
    assert (concat (words <$> textwrap.wrap_lines
              (rounds (textwrap._split_chunks text)) 250
              (textwrap._split_chunks text) []) = words text) as Hwords.
    { rewrite wrap_lines_words by done.
      unfold textwrap._split_chunks. by rewrite _split_concat, words_munge. }
    split; [done|]. unfold normalize. by rewrite words_join, Hwords.
Qed.

Lemma wrap_250_chunks_witness :
  let text := lit "The quick  brown fox" ++ ["009"; "010"]%char ++ lit "jumps." in
  ∃ chunks, textwrap.wrap text 250 = Ok chunks
    ∧ Forall (λ chunk, length chunk ≤ 250)%nat chunks
    ∧ filter (λ c, ¬ isspace c) (concat chunks) = filter (λ c, ¬ isspace c) text
    ∧ concat (words <$> chunks) = words text
    ∧ normalize (join (lit " ") chunks) = normalize text.
Proof.
  intros text.
  destruct (wrap_250_chunks text) as (chunks & Hwrap & Hwidth & Hchars & Hwords).
  exists chunks. split_and!; [done|done|done| |]; apply Hwords.
  - apply (bool_decide_unpack _). by vm_compute.
  - apply (bool_decide_unpack _). by vm_compute.
  - apply (bool_decide_unpack _). by vm_compute.
  - apply (bool_decide_unpack _). by vm_compute.
Defined.

(** * Further properties *)

(** ** The fetch and the merge *)

Lemma read_entries_ok (l : list json) (voices : list voice) :
  Forall2 (λ v e, entry_of v = Some e) l voices →
  comprehension
    (λ v, i ← getitem v (lit "id"); n ← getitem v (lit "name"); Ok (Voice i n)) l
  = Ok voices.
Proof.
  induction 1 as [|v e l voices Hv _ IH]; [done|].
  cbn [comprehension]. rewrite read_entry, Hv. simpl. by rewrite IH.
Qed.

(** X1.  Of a payload that is a list of objects which all bind [id] and
    [name], the fetch returns one entry per object, in the order of the
    payload, made of the values bound to these two keys; whatever else an
    object binds is left out, and nothing is printed. *)
Theorem fetch_keeps_id_and_name (l : list json) (voices : list voice) :
  Forall2 (λ v e, ∃ items, v = JObj items
             ∧ dict_get (lit "id") items = Some (voice_id e)
             ∧ dict_get (lit "name") items = Some (voice_name e)) l voices →
  fetch_community_voices (payload (JArr l)) = ([], voices).
Proof.
  intros H. unfold fetch_community_voices, fetch_attempt, payload. simpl.
  rewrite (read_entries_ok l voices); [done|].
  eapply Forall2_impl; [exact H|]. intros v [i n] (items & -> & Hi & Hn).
  simpl in *. by rewrite Hi, Hn.
Qed.

Lemma fetch_keeps_id_and_name_witness :
  fetch_community_voices
    (payload (JArr [JObj [(lit "name", JStr (lit "A")); (lit "gender", JStr (lit "f"));
                          (lit "id", JStr (lit "community/a"))]]))
  = ([], [local_voice "community/a" "A"]).
Proof.
  apply fetch_keeps_id_and_name. constructor; [|constructor].
  eexists. by split_and!.
Defined.

Lemma comprehension_if_sublist {A} (p : A → result bool) (l ys : list A) :
  comprehension_if p l = Ok ys → ys `sublist_of` l.
Proof.
  revert ys. induction l as [|x l IH]; intros ys; simpl.
  { by intros [= <-]. }
  destruct (p x) as [b|e]; simpl; [|done].
  destruct (comprehension_if p l) as [zs|e]; simpl; [|done].
  intros [= <-]. specialize (IH zs eq_refl).
  destruct b; [by apply sublist_skip|by apply sublist_cons].
Qed.

(** Whenever the merge returns, it returns the local list followed by
    remote entries, in their order. *)
Lemma merge_voices_ok (L R cat : list voice) :
  merge_voices L R = Ok cat → ∃ rest, cat = L ++ rest ∧ rest `sublist_of` R.
Proof.
  unfold merge_voices.
  destruct (comprehension _ L) as [keys|e]; simpl; [|done].
  destruct (comprehension_if _ R) as [rest|e] eqn:Hrest; simpl; [|done].
  intros [= <-]. exists rest. split; [done|]. by eapply comprehension_if_sublist.
Qed.

Lemma get_voice_catalog_ok (get : result response) (cat : list voice) :
  (get_voice_catalog get).2 = Ok cat →
  ∃ rest, cat = LOCAL_VOICE_OPTIONS ++ rest
    ∧ rest `sublist_of` (fetch_community_voices get).2.
Proof.
  unfold get_voice_catalog. rewrite get_voice_catalog_from_result.
  destruct (fetch_community_voices get).2 as [|v R].
  - intros [= <-]. exists []. by rewrite app_nil_r.
  - apply merge_voices_ok.
Qed.

(** X2.  The catalog invents nothing and loses no id: every entry of a
    catalog the resolver returns is a local entry or a fetched one, and,
    the fetched ids being strings, the id of every fetched entry is the id
    of an entry of the catalog. *)
Theorem catalog_covers_fetched_ids (get : result response) (cat : list voice) :
  Forall (λ v, is_str (voice_id v)) (fetch_community_voices get).2 →
  (get_voice_catalog get).2 = Ok cat →
  (∀ v, v ∈ cat → v ∈ LOCAL_VOICE_OPTIONS ∨ v ∈ (fetch_community_voices get).2)
  ∧ (∀ v, v ∈ (fetch_community_voices get).2 → voice_id v ∈ voice_id <$> cat).
Proof.
  intros Hstr Hcat. split.
  - destruct (get_voice_catalog_ok get cat Hcat) as (rest & -> & Hrest).
    intros v [Hv|Hv]%elem_of_app; [by left|right]. by eapply elem_of_sublist.
  - revert Hcat. unfold get_voice_catalog. rewrite get_voice_catalog_from_result.
    pose proof local_ids_are_strings as HL. revert HL.
    generalize LOCAL_VOICE_OPTIONS. intros L HL.
    destruct (fetch_community_voices get).2 as [|u R] eqn:HR.
    { intros _ v Hv. by apply elem_of_nil in Hv. }
    rewrite merge_voices_strings by done.
    intros [= <-] v Hv. rewrite fmap_app, elem_of_app.
    destruct (decide (voice_id v ∈ voice_id <$> L)) as [Hl|Hl]; [by left|right].
    apply list_elem_of_fmap. exists v. split; [done|].
    by apply list_elem_of_filter.
Qed.

Lemma catalog_covers_fetched_ids_witness :
  let get := payload (JArr [remote_entry "community/a" "A";
                            remote_entry "v2/en_speaker_1" "B"]) in
  let cat := LOCAL_VOICE_OPTIONS ++ [local_voice "community/a" "A"] in
  (∀ v, v ∈ cat → v ∈ LOCAL_VOICE_OPTIONS ∨ v ∈ (fetch_community_voices get).2)
  ∧ (∀ v, v ∈ (fetch_community_voices get).2 → voice_id v ∈ voice_id <$> cat).
Proof.
  intros get cat. apply catalog_covers_fetched_ids.
  - by repeat constructor.
  - vm_compute. reflexivity.
Defined.

Lemma filter_none {A} (P : A → Prop) `{!∀ x, Decision (P x)} (l : list A) :
  Forall (λ x, ¬ P x) l → filter P l = [].
Proof.
  induction 1 as [|x l Hx _ IH]; [done|].
  rewrite filter_cons, IH. by destruct (decide (P x)).
Qed.

(** X3.  When every fetched entry carries the id of a local entry, the
    catalog is exactly the local list: the fetch has succeeded, the console
    names the number of fetched voices, and nothing is added. *)
Theorem remote_copies_of_local_add_nothing (get : result response) :
  (fetch_community_voices get).2 ≠ [] →
  Forall (λ v, voice_id v ∈ voice_id <$> LOCAL_VOICE_OPTIONS)
    (fetch_community_voices get).2 →
  ∃ out,
    get_voice_catalog get
    = (out ++ [PrintFetched (length (fetch_community_voices get).2)],
       Ok LOCAL_VOICE_OPTIONS).
Proof.
  intros Hne Hdup. unfold get_voice_catalog, get_voice_catalog_from.
  destruct (fetch_community_voices get) as [out [|v R]]; [done|]. cbn [snd] in *.
  exists out. f_equal.
  rewrite merge_voices_strings; [|apply local_ids_are_strings|].
  - rewrite filter_none; [by rewrite app_nil_r|].
    eapply Forall_impl; [exact Hdup|]. intros u Hu Hnot. by apply Hnot.
  - eapply Forall_impl; [exact Hdup|]. intros u Hu.
    apply list_elem_of_fmap in Hu as (w & -> & Hw).
    by eapply Forall_forall in Hw; [|apply local_ids_are_strings].
Qed.

Lemma remote_copies_of_local_add_nothing_witness :
  ∃ out,
    get_voice_catalog (payload (JArr [remote_entry "v2/en_speaker_7" "Whisper"]))
    = (out ++ [PrintFetched 1], Ok LOCAL_VOICE_OPTIONS).
Proof.
  apply (remote_copies_of_local_add_nothing
           (payload (JArr [remote_entry "v2/en_speaker_7" "Whisper"]))).
  - discriminate.
  - constructor; [|constructor]. apply (bool_decide_unpack _). by vm_compute.
Defined.

(** ** The start of the program *)

Lemma membership_raises (ids : gset hashable) (R : list voice) :
  Exists (λ v, ¬ can_hash (voice_id v)) R →
  comprehension_if (λ v, k ← py_hash (voice_id v); Ok (bool_decide (k ∉ ids))) R
  = Raise TypeError.
Proof.
  induction R as [|v R IH]; intros H; [by apply Exists_nil in H|].
  cbn [comprehension_if].
  destruct (voice_id v) eqn:Hv; simpl; try done;
    (apply Exists_cons in H as [H|H]; [by rewrite Hv in H; destruct H|]);
    by rewrite IH.
Qed.

Lemma merge_voices_unhashable (R : list voice) :
  Exists (λ v, ¬ can_hash (voice_id v)) R →
  merge_voices LOCAL_VOICE_OPTIONS R = Raise TypeError.
Proof.
  intros H. unfold merge_voices.
  rewrite (comprehension_total _ (λ v, key (voice_id v))); simpl.
  - by rewrite membership_raises.
  - eapply Forall_impl; [apply local_ids_are_strings|].
    intros v Hv. by apply py_hash_key, is_str_can_hash.
Qed.

(** X4.  A fetched entry whose id is a JSON array or object keeps the
    program from starting, although the models are loaded: the merge raises
    [TypeError], [load_models] stops the progress bar, shows the error box
    and closes the splash window, and the main window is never opened. *)
Theorem unhashable_id_stops_startup (get : result response) :
  Exists (λ v, ¬ can_hash (voice_id v)) (fetch_community_voices get).2 →
  ∃ out,
    load_models (Ok ()) get
    = (out, [pb_stop; splash_showerror (lit "Error loading models") TypeError;
             splash_destroy]).
Proof.
  intros H. unfold load_models, get_voice_catalog, get_voice_catalog_from.
  destruct (fetch_community_voices get) as [out [|v R]]; cbn [snd] in H.
  { by apply Exists_nil in H. }
  rewrite merge_voices_unhashable by done. by eexists.
Qed.

Lemma unhashable_id_stops_startup_witness :
  ∃ out,
    load_models (Ok ())
      (payload (JArr [remote_entry "community/a" "A";
                      JObj [(lit "id", JObj []); (lit "name", JStr (lit "B"))]]))
    = (out, [pb_stop; splash_showerror (lit "Error loading models") TypeError;
             splash_destroy]).
Proof.
  apply unhashable_id_stops_startup.
  apply Exists_cons_tl, Exists_cons_hd. by intros [].
Defined.

(** X5.  When the models are loaded and no fetched entry has a JSON array
    or object as its id (whether the fetch has failed or not),
    [load_models] raises nothing and schedules the main window with a
    catalog that begins with the eight local voices; the combobox of that
    window has one name per entry and starts on the name of the first local
    voice. *)
Theorem startup_opens_main_window (get : result response) :
  Forall (λ v, can_hash (voice_id v)) (fetch_community_voices get).2 →
  ∃ out voices,
    load_models (Ok ()) get = (out, [after 300 voices])
    ∧ take 8 voices = LOCAL_VOICE_OPTIONS
    ∧ length (voice_names voices) = length voices
    ∧ initial_choice voices = Ok (JStr (lit "Deep Male (English)")).
Proof.
  intros H. unfold load_models, get_voice_catalog.
  pose proof (get_voice_catalog_from_result LOCAL_VOICE_OPTIONS get) as Hres.
  destruct (get_voice_catalog_from LOCAL_VOICE_OPTIONS get) as [out r].
  cbn [snd] in Hres. subst r. exists out.
  destruct (fetch_community_voices get).2 as [|v R].
  - exists LOCAL_VOICE_OPTIONS. by split_and!.
  - rewrite merge_voices_keys; [| |done].
    + eexists. split_and!; [done|done| |done].
      unfold voice_names. by rewrite length_fmap.
    + eapply Forall_impl; [apply local_ids_are_strings|].
      intros u Hu. by apply is_str_can_hash.
Qed.

Lemma startup_opens_main_window_witness :
  ∃ out voices,
    load_models (Ok ()) (Raise (RequestException (lit "timed out")))
    = (out, [after 300 voices])
    ∧ take 8 voices = LOCAL_VOICE_OPTIONS
    ∧ length (voice_names voices) = length voices
    ∧ initial_choice voices = Ok (JStr (lit "Deep Male (English)")).
Proof. apply startup_opens_main_window. constructor. Defined.

(** ** More on the text splitting *)

(** What holds of every character of the chunks to wrap holds of every
    character of the lines. *)
Lemma wrap_lines_Forall (P : ascii → Prop) (width : nat) (chunks : list str) :
  (0 < width)%nat →
  Forall P (concat chunks) →
  Forall P (concat (textwrap.wrap_lines (rounds chunks) width chunks [])).
Proof.
  intros Hwidth Hchunks.
  enough (Forall P (concat (textwrap.wrap_lines (rounds chunks) width chunks []))
          ∧ Forall P (concat [])) as [H _]; [done|].
  apply (wrap_lines_invariant
    (λ chunks' lines, Forall P (concat lines) ∧ Forall P (concat chunks')));
    [done| |done|by split].
  clear chunks Hchunks. intros chunks lines _ [Hlines Hchunks].
  destruct (wrap_line_cases width chunks lines Hwidth)
    as (lead & taken & rest & cur_line & chunks' & -> & _ & _ & Hcase & ->).
  cbn [fst snd].
  rewrite !concat_app, !Forall_app in Hchunks. destruct Hchunks as (_ & Htaken & Hrest).
  destruct (concat_drop_trailing cur_line) as (tail & Heq & _).
  assert (Forall P (concat cur_line) ∧ Forall P (concat chunks')) as [Hcur Hnew].
  { destruct Hcase as [(-> & -> & _)|(c & rest' & end_ & -> & _ & _ & _ & _ & -> & ->)];
      [done|].
    rewrite concat_cons, Forall_app in Hrest. destruct Hrest as [Hc Hrest].
    rewrite concat_app, !concat_cons, concat_nil, app_nil_r, !Forall_app.
    split_and!; [done|by apply Forall_take|by apply Forall_drop|done]. }
  split; [|done].
  rewrite Heq, Forall_app in Hcur. destruct Hcur as [Hcur _].
  destruct (textwrap.drop_trailing cur_line); [done|].
  rewrite concat_app, Forall_app. split; [done|].
  by rewrite concat_cons, concat_nil, app_nil_r.
Qed.

Lemma munge_spaces_only (text : str) :
  Forall (λ c, textwrap.whitespace c → c = textwrap.SP)
    (textwrap._munge_whitespace text).
Proof.
  unfold textwrap._munge_whitespace, textwrap.translate.
  apply Forall_fmap, Forall_forall. intros c _. simpl.
  destruct (textwrap.whitespace c) eqn:Hc; [done|].
  rewrite Hc. by intros [].
Qed.

(** X6.  No chunk of a split text holds a tab, a line feed, a vertical tab,
    a form feed or a carriage return: the only whitespace of [textwrap]
    that a chunk can hold is the space. *)
Theorem chunks_hold_no_line_breaks (text : str) (chunks : list str) :
  textwrap.wrap text 250 = Ok chunks →
  Forall (λ chunk, Forall (λ c, textwrap.whitespace c → c = textwrap.SP) chunk) chunks.
Proof.
  rewrite wrap_unfold by lia. intros [= <-].
  apply Forall_concat.
  apply (wrap_lines_Forall _ 250); [lia|].
  unfold textwrap._split_chunks. rewrite _split_concat.
  apply munge_spaces_only.
Qed.

Lemma chunks_hold_no_line_breaks_witness :
  Forall (λ chunk, Forall (λ c, textwrap.whitespace c → c = textwrap.SP) chunk)
    [lit "one      three"].
Proof.
  apply (chunks_hold_no_line_breaks (lit "one" ++ ["009"; "010"]%char ++ lit "three")).
  vm_compute. reflexivity.
Defined.

Lemma blank_nil : textwrap.blank [] = true.
Proof. reflexivity. Qed.

Lemma drop_trailing_nonempty (taken : list str) (x : str) :
  Forall (λ c, c ≠ []) taken →
  Forall (λ c, c ≠ []) (textwrap.drop_trailing (taken ++ [x])).
Proof.
  intros Htaken. unfold textwrap.drop_trailing. rewrite last_snoc.
  destruct (textwrap.blank x) eqn:Hx; [by rewrite removelast_last|].
  apply Forall_app. split; [done|]. constructor; [|done].
  intros ->. by rewrite blank_nil in Hx.
Qed.

Lemma drop_trailing_Forall (P : str → Prop) (cur_line : list str) :
  Forall P cur_line → Forall P (textwrap.drop_trailing cur_line).
Proof.
  intros H. destruct (drop_trailing_spec cur_line) as (tail & Heq & _).
  rewrite Heq in H. by apply Forall_app in H as [? _].
Qed.

Lemma wrap_line_nonempty (width : nat) (chunks lines : list str) :
  (0 < width)%nat →
  Forall (λ c, c ≠ []) chunks → Forall (λ l, l ≠ []) lines →
  Forall (λ c, c ≠ []) (textwrap.wrap_line width chunks lines).1
  ∧ Forall (λ l, l ≠ []) (textwrap.wrap_line width chunks lines).2.
Proof.
  intros Hwidth Hchunks Hlines.
  destruct (wrap_line_cases width chunks lines Hwidth)
    as (lead & taken & rest & cur_line & chunks' & -> & _ & _ & Hcase & ->).
  cbn [fst snd].
  rewrite !Forall_app in Hchunks. destruct Hchunks as (_ & Htaken & Hrest).
  assert (Forall (λ c, c ≠ []) chunks'
          ∧ Forall (λ c, c ≠ []) (textwrap.drop_trailing cur_line)) as [Hnew Hcur].
  { destruct Hcase as [(-> & -> & _)|(c & rest' & end_ & -> & Hlong & Hend & _ & _ & -> & ->)].
    - split; [done|]. by apply drop_trailing_Forall.
    - apply Forall_cons in Hrest as [_ Hrest]. split.
      + constructor; [|done]. intros H. apply (f_equal length) in H.
        rewrite length_drop in H. simpl in H. lia.
      + by apply drop_trailing_nonempty. }
  split; [done|].
  destruct (textwrap.drop_trailing cur_line) as [|d dt]; [done|].
  apply Forall_app. split; [done|]. constructor; [|done].
  apply Forall_cons in Hcur as [Hd _]. rewrite concat_cons.
  by destruct d.
Qed.

Lemma _split_chunks_nonempty (text : str) :
  Forall (λ c, c ≠ []) (textwrap._split_chunks text).
Proof.
  unfold textwrap._split_chunks. rewrite _split_scan. by apply split_at_concat.
Qed.

(** X7.  No chunk of a split text is empty: the model is never handed the
    empty string. *)
Theorem chunks_are_not_empty (text : str) (chunks : list str) :
  textwrap.wrap text 250 = Ok chunks → Forall (λ chunk, chunk ≠ []) chunks.
Proof.
  rewrite wrap_unfold by lia. intros [= <-].
  enough (Forall (λ c : str, c ≠ []) []
          ∧ Forall (λ l, l ≠ [])
              (textwrap.wrap_lines (rounds (textwrap._split_chunks text)) 250
                 (textwrap._split_chunks text) [])) as [_ H]; [done|].
  apply (wrap_lines_invariant
    (λ chunks' lines, Forall (λ c, c ≠ []) chunks' ∧ Forall (λ l, l ≠ []) lines));
    [lia| |done|].
  - intros chunks lines _ [Hc Hl]. apply wrap_line_nonempty; [lia|done|done].
  - split; [apply _split_chunks_nonempty|done].
Qed.

Lemma chunks_are_not_empty_witness :
  Forall (λ chunk : str, chunk ≠ []) [lit "  hello"].
Proof.
  apply (chunks_are_not_empty (lit "  hello   ")).
  vm_compute. reflexivity.
Defined.

Lemma length_concat_le (width : nat) (lines : list str) :
  Forall (λ l, length l ≤ width)%nat lines →
  (length (concat lines) ≤ width * length lines)%nat.
Proof.
  induction 1 as [|l lines Hl _ IH]; simpl; [lia|].
  rewrite length_app. lia.
Qed.

Lemma length_filter_le {A} (P : A → Prop) `{!∀ x, Decision (P x)} (l : list A) :
  (length (filter P l) ≤ length l)%nat.
Proof.
  induction l as [|x l IH]; [done|]. rewrite filter_cons.
  destruct (decide (P x)); simpl; lia.
Qed.

Lemma wrap_characters (text : str) (chunks : list str) :
  textwrap.wrap text 250 = Ok chunks →
  Forall (λ chunk, length chunk ≤ 250)%nat chunks
  ∧ filter (λ c, ¬ isspace c) (concat chunks) = filter (λ c, ¬ isspace c) text.
Proof.
  rewrite wrap_unfold by lia. intros [= <-]. split.
  - apply wrap_lines_width. lia.
  - rewrite wrap_lines_characters by lia.
    unfold textwrap._split_chunks. by rewrite _split_concat, munge_characters.
Qed.

(** A text with a character that is not whitespace gives a chunk. *)
Lemma wrap_nonblank (text : str) (chunks : list str) :
  Exists (λ c, ¬ isspace c) text →
  textwrap.wrap text 250 = Ok chunks → chunks ≠ [].
Proof.
  intros Hex [_ Hchars]%wrap_characters ->. simpl in Hchars.
  apply Exists_exists in Hex as (c & Hc & Hnot).
  assert (c ∈ filter (λ c, ¬ isspace c) text) as Hin by by apply list_elem_of_filter.
  rewrite <- Hchars in Hin. by apply elem_of_nil in Hin.
Qed.

(** X8.  The chunks are at least as many as the characters of the text that
    are not whitespace fill chunks of 250: a text with [n] such characters
    gives at least [n / 250] chunks, rounded up, and a text with one such
    character gives a chunk. *)
Theorem chunks_count_bound (text : str) (chunks : list str) :
  textwrap.wrap text 250 = Ok chunks →
  (length (filter (λ c, ¬ isspace c) text) ≤ 250 * length chunks)%nat
  ∧ (Exists (λ c, ¬ isspace c) text → chunks ≠ []).
Proof.
  intros Hwrap. split; [|intros Hex; by eapply wrap_nonblank].
  destruct (wrap_characters text chunks Hwrap) as [Hwidth <-].
  etransitivity; [apply length_filter_le|]. by apply length_concat_le.
Qed.

Lemma chunks_count_bound_witness :
  let text := replicate 251 "a"%char in
  let chunks := [replicate 250 "a"%char; lit "a"] in
  (length (filter (λ c, ¬ isspace c) text) ≤ 250 * length chunks)%nat
  ∧ (Exists (λ c, ¬ isspace c) text → chunks ≠ []).
Proof.
  intros text chunks. apply chunks_count_bound. vm_compute. reflexivity.
Defined.

Lemma fill_line_all (width : nat) (chunks cur_line : list str) (cur_len : nat) :
  (cur_len + length (concat chunks) ≤ width)%nat →
  textwrap.fill_line width chunks cur_line cur_len
  = ([], cur_line ++ chunks, (cur_len + length (concat chunks))%nat).
Proof.
  revert cur_line cur_len. induction chunks as [|c chunks IH]; intros cur_line cur_len.
  { simpl. by rewrite app_nil_r, Nat.add_0_r. }
  simpl. rewrite length_app. intros Hfit.
  rewrite (proj2 (Nat.leb_le _ _)) by lia.
  rewrite IH by lia. by rewrite <- app_assoc, Nat.add_assoc.
Qed.

Lemma expandtabs_at_last (tabsize line_pos : nat) (s : str) (c : ascii) :
  c ≠ textwrap.TAB →
  textwrap.expandtabs_at tabsize line_pos (s ++ [c])
  = textwrap.expandtabs_at tabsize line_pos s ++ [c].
Proof.
  intros Hc. revert line_pos. induction s as [|d s IH]; intros line_pos; simpl.
  { by destruct (decide (c = textwrap.TAB)). }
  destruct (decide (d = textwrap.TAB)).
  - destruct (0 <? tabsize)%nat; [|done]. by rewrite IH, app_assoc.
  - by rewrite IH.
Qed.

Lemma munge_last (s : str) (c : ascii) :
  ¬ isspace c →
  textwrap._munge_whitespace (s ++ [c]) = textwrap._munge_whitespace s ++ [c].
Proof.
  intros Hc. unfold textwrap._munge_whitespace, textwrap.expandtabs.
  rewrite expandtabs_at_last by (intros ->; by apply Hc).
  unfold textwrap.translate. rewrite fmap_app. simpl.
  destruct (textwrap.whitespace c) eqn:Hw; [|done].
  destruct Hc. apply whitespace_isspace. by rewrite Hw.
Qed.

Lemma last_concat (chunks : list str) (x : str) :
  x ≠ [] → last (concat (chunks ++ [x])) = last x.
Proof.
  intros Hx. rewrite concat_app. simpl. rewrite app_nil_r.
  destruct x as [|d x _] using rev_ind; [done|].
  by rewrite app_assoc, !last_snoc.
Qed.

(** X9.  A text that ends with a character that is not whitespace and that
    is at most 250 characters long once its tabs are expanded is one chunk:
    the text with every tab expanded and every other whitespace character
    of [textwrap] replaced by a space. *)
Theorem short_text_is_one_chunk (text : str) (c : ascii) :
  last text = Some c →
  ¬ isspace c →
  (length (textwrap._munge_whitespace text) ≤ 250)%nat →
  textwrap.wrap text 250 = Ok [textwrap._munge_whitespace text].
Proof.
  intros Hlast Hc Hlen. rewrite wrap_unfold by lia. f_equal.
  assert (∃ s, text = s ++ [c]) as [s ->].
  { destruct text as [|d text _] using rev_ind; [done|].
    rewrite last_snoc in Hlast. injection Hlast as ->. by eexists. }
  pose proof (_split_concat (textwrap._munge_whitespace (s ++ [c]))) as Hconcat.
  pose proof (_split_chunks_nonempty (s ++ [c])) as Hne.
  unfold textwrap._split_chunks in *.
  generalize dependent (textwrap._split (textwrap._munge_whitespace (s ++ [c]))).
  intros chunks0 Hconcat Hne. rewrite <- Hconcat in *. clear Hlast.
  rewrite munge_last in Hconcat by done.
  destruct chunks0 as [|x chunks _] using rev_ind.
  { by destruct (textwrap._munge_whitespace s). }
  apply Forall_app in Hne as [_ [Hx _]%Forall_cons].
  assert (textwrap.blank x = false) as Hblank.
  { apply (f_equal last) in Hconcat.
    rewrite last_concat, last_snoc in Hconcat by done.
    destruct (textwrap.blank x) eqn:Hb; [|done].
    assert (Forall (λ d, isspace d) x) as Hall by (apply blank_isspace; by rewrite Hb).
    destruct x as [|d x _] using rev_ind; [done|].
    rewrite last_snoc in Hconcat. injection Hconcat as ->.
    by apply Forall_app in Hall as [_ [? _]%Forall_cons]. }
  assert (textwrap.wrap_line 250 (chunks ++ [x]) []
          = ([], [concat (chunks ++ [x])])) as Hline.
  { unfold textwrap.wrap_line.
    replace (match chunks ++ [x] with
             | [] => chunks ++ [x]
             | chunk :: chunks' =>
                 if textwrap.blank chunk && bool_decide (@nil str ≠ [])
                 then chunks' else chunks ++ [x]
             end) with (chunks ++ [x]).
    2:{ destruct (chunks ++ [x]); [done|]. by rewrite andb_false_r. }
    rewrite fill_line_all by (simpl; lia). cbn [app].
    unfold textwrap.drop_trailing. rewrite last_snoc, Hblank.
    by destruct chunks. }
  destruct (rounds (chunks ++ [x])) as [|fuel] eqn:Hfuel.
  { apply rounds_nil in Hfuel. by destruct chunks. }
  destruct (chunks ++ [x]) as [|y ys] eqn:Hys; [by destruct chunks|].
  cbn [textwrap.wrap_lines]. rewrite Hline. by destruct fuel.
Qed.

Lemma short_text_is_one_chunk_witness :
  textwrap.wrap (lit "Hello" ++ ["010"]%char ++ lit "world") 250
  = Ok [textwrap._munge_whitespace (lit "Hello" ++ ["010"]%char ++ lit "world")].
Proof.
  apply (short_text_is_one_chunk _ "d"%char).
  - reflexivity.
  - by vm_compute.
  - vm_compute. lia.
Defined.

(** ** [strip] *)

Lemma lstrip_spec (s : str) :
  ∃ a, s = a ++ lstrip s ∧ Forall (λ c, isspace c) a.
Proof.
  induction s as [|c s (a & IH & Ha)]; [by exists []|]. simpl.
  destruct (isspace c) eqn:Hc; [|by exists []].
  exists (c :: a). split; [by rewrite IH at 1|].
  constructor; [by rewrite Hc|done].
Qed.

Lemma rstrip_spec (s : str) :
  ∃ b, s = rstrip s ++ b ∧ Forall (λ c, isspace c) b
    ∧ ∀ c, last (rstrip s) = Some c → ¬ isspace c.
Proof.
  unfold rstrip. destruct (lstrip_spec (rev s)) as (a & Heq & Ha).
  exists (rev a). split_and!.
  - by rewrite <- rev_app_distr, <- Heq, rev_involutive.
  - by apply Forall_rev.
  - pose proof (lstrip_head (rev s)) as Hhead.
    destruct (lstrip (rev s)) as [|d l]; [done|]. simpl.
    rewrite last_snoc. by intros c [= <-].
Qed.

(** X10.  [strip] takes whitespace off the two ends of a text and nothing
    else: the text is its stripped form between two runs of whitespace, and
    the stripped form neither begins nor ends with whitespace; stripping
    again changes nothing. *)
Theorem strip_removes_outer_whitespace (s : str) :
  (∃ a b, s = a ++ strip s ++ b
     ∧ Forall (λ c, isspace c) a ∧ Forall (λ c, isspace c) b)
  ∧ (∀ c, head (strip s) = Some c → ¬ isspace c)
  ∧ (∀ c, last (strip s) = Some c → ¬ isspace c)
  ∧ strip (strip s) = strip s.
Proof.
  unfold strip at 1 2 3.
  destruct (lstrip_spec s) as (a & Ha & Hspace_a).
  destruct (rstrip_spec (lstrip s)) as (b & Hb & Hspace_b & Hlast).
  pose proof (lstrip_head s) as Hhead.
  assert (∀ c, head (rstrip (lstrip s)) = Some c → ¬ isspace c) as Hhead'.
  { intros c Hc. rewrite Hb in Hhead.
    destruct (rstrip (lstrip s)) as [|d l]; [done|].
    injection Hc as ->. exact Hhead. }
  split_and!; [|done|done|].
  - exists a, b. split_and!; [|done|done]. by rewrite <- Hb.
  - fold (strip s) in *. unfold strip at 1.
    assert (lstrip (strip s) = strip s) as ->.
    { destruct (strip s) as [|d l] eqn:Hs; [done|]. simpl.
      destruct (isspace d) eqn:Hd; [|done].
      destruct (Hhead' d eq_refl). by rewrite Hd. }
    destruct (rstrip_spec (strip s)) as (b' & Hb' & Hspace_b' & _).
    destruct b' as [|d b' _] using rev_ind; [by rewrite app_nil_r in Hb'|].
    apply Forall_app in Hspace_b' as [_ [Hd _]%Forall_cons].
    destruct (Hlast d); [|done].
    rewrite Hb', app_assoc. apply last_snoc.
Qed.

(** ** More on the generate and preview workflows *)
Section main_ui_further.

Context {sample : Type}.
Variable SAMPLE_RATE : Z.
Variable generate_audio : str → json → result (list sample).
Variable asksaveasfilename : str.
Variable write_error : str → option exn.
Variable play_error : option exn.

Local Abbreviation worker_def := @worker.
Local Abbreviation generate_voice_def := @generate_voice.
Local Abbreviation worker_preview_def := @worker_preview.
Local Abbreviation preview_voice_def := @preview_voice.
Local Abbreviation synthesize_def := @synthesize.
Local Abbreviation world := (@world sample).
Local Abbreviation event := (@event sample).
Local Abbreviation synthesize := (synthesize generate_audio).
Local Abbreviation chunk_events := (@chunk_events sample).
Local Abbreviation synthesis_calls := (@synthesis_calls sample).
Local Abbreviation file_writes := (@file_writes sample).
Local Abbreviation worker :=
  (worker SAMPLE_RATE generate_audio asksaveasfilename write_error).
Local Abbreviation generate_voice :=
  (generate_voice SAMPLE_RATE generate_audio asksaveasfilename write_error).
Local Abbreviation worker_preview :=
  (worker_preview SAMPLE_RATE generate_audio write_error play_error).
Local Abbreviation preview_voice :=
  (preview_voice SAMPLE_RATE generate_audio write_error play_error).

Local Ltac run :=
  cbv beta iota zeta delta
    [mbind io_bind mret io_ret emit lift log call_generate_audio try_except
     try_finally write from_wave_file play];
  cbn [fst snd text_box voice_choice trace files].

Local Ltac same_trace :=
  cbn [fst snd text_box voice_choice trace files];
  do 2 f_equal; rewrite <- ?app_assoc; reflexivity.

Lemma synthesize_returns n i chunks voice_model acc (w : world) audios :
  Forall2 (λ c a, generate_audio c voice_model = Ok a) chunks audios →
  synthesize n i chunks voice_model acc w
  = (log (chunk_events n i chunks voice_model) w, Ok (acc ++ audios)).
Proof.
  intros H. revert i acc w.
  induction H as [|c a chunks audios Hc _ IH]; intros i acc [tb vc tr fs]; simpl; run.
  - by rewrite !app_nil_r.
  - rewrite Hc, IH. run. by rewrite <- !app_assoc.
Qed.

(** X11.  When every chunk is synthesized, the dialog returns a file name
    and the write succeeds, the file holds, at the sample rate of the model,
    the audio of the chunks one after the other in the order of the chunks,
    with nothing between them; the model has been called once per chunk, in
    order, each call after its progress line, the dialog has been opened
    once, after the last chunk, and the status names the file. *)
Theorem generation_saves_joined_audio (text_prompt : str) (voice_model : json)
    (w : world) (chunks : list str) (audios : list (list sample)) :
  textwrap.wrap text_prompt 250 = Ok chunks →
  Exists (λ c, ¬ isspace c) text_prompt →
  Forall2 (λ c a, generate_audio c voice_model = Ok a) chunks audios →
  asksaveasfilename ≠ [] →
  write_error asksaveasfilename = None →
  worker text_prompt voice_model w
  = (World (text_box w) (voice_choice w)
       (trace w
        ++ [progress_pack; progress_start; status_config Generating (lit "orange")]
        ++ chunk_events (length chunks) 0 chunks voice_model
        ++ [asksaveasfilename_call;
            write_call asksaveasfilename SAMPLE_RATE (concat audios);
            status_config (Saved asksaveasfilename) (lit "green");
            progress_stop; progress_pack_forget])
       (<[asksaveasfilename := (SAMPLE_RATE, concat audios)]> (files w)),
     Ok ()).
Proof.
  intros Hwrap Hex Hsynth Hname Hwrite.
  pose proof (wrap_nonblank _ _ Hex Hwrap) as Hchunks.
  destruct w as [tb vc tr fs]. unfold worker_def. run.
  rewrite Hwrap. rewrite (synthesize_returns _ _ _ _ _ _ audios Hsynth). run.
  destruct audios as [|a audios].
  { apply Forall2_nil_inv_r in Hsynth. by subst. }
  cbn [app np_concatenate]. run.
  destruct asksaveasfilename as [|c filename]; [done|]. run.
  rewrite Hwrite. run. same_trace.
Qed.

(** X12.  When every chunk is synthesized and the dialog is cancelled, no
    file is written and no error is shown: the files are what they were and
    the status says that the user has cancelled.  The audio is given up. *)
Theorem cancelled_dialog_writes_nothing (text_prompt : str) (voice_model : json)
    (w : world) (chunks : list str) (audios : list (list sample)) :
  textwrap.wrap text_prompt 250 = Ok chunks →
  Exists (λ c, ¬ isspace c) text_prompt →
  Forall2 (λ c a, generate_audio c voice_model = Ok a) chunks audios →
  asksaveasfilename = [] →
  worker text_prompt voice_model w
  = (log ([progress_pack; progress_start; status_config Generating (lit "orange")]
          ++ chunk_events (length chunks) 0 chunks voice_model
          ++ [asksaveasfilename_call; status_config Canceled (lit "gray");
              progress_stop; progress_pack_forget]) w,
     Ok ()).
Proof.
  intros Hwrap Hex Hsynth Hname.
  pose proof (wrap_nonblank _ _ Hex Hwrap) as Hchunks.
  destruct w as [tb vc tr fs]. unfold worker_def. run.
  rewrite Hwrap. rewrite (synthesize_returns _ _ _ _ _ _ audios Hsynth). run.
  destruct audios as [|a audios].
  { apply Forall2_nil_inv_r in Hsynth. by subst. }
  cbn [app np_concatenate]. run. rewrite Hname. run. same_trace.
Qed.


(** Every run of the worker of [generate_voice]: the chunks are
    synthesized in order up to some chunk, then comes what ends the run,
    and the progress bar is stopped and hidden. *)
Lemma worker_run (text_prompt : str) (voice_model : json) (w : world)
    (chunks : list str) :
  textwrap.wrap text_prompt 250 = Ok chunks →
  ∃ k t_end fs',
    worker text_prompt voice_model w
    = (World (text_box w) (voice_choice w)
         (trace w
          ++ [progress_pack; progress_start; status_config Generating (lit "orange")]
          ++ chunk_events (length chunks) 0 (take k chunks) voice_model
          ++ t_end ++ [progress_stop; progress_pack_forget]) fs',
       Ok ())
    ∧ synthesis_calls t_end = []
    ∧ (chunks ≠ [] → 0 < k)%nat
    ∧ (∀ path, path ≠ asksaveasfilename → fs' !! path = files w !! path).
Proof.
  intros Hwrap. destruct w as [tb vc tr fs]. unfold worker_def. run.
  rewrite Hwrap.
  match goal with
  | |- context [synthesize_def _ _ ?n ?i chunks voice_model ?acc ?w0] =>
      destruct (synthesize_run generate_audio n i chunks voice_model acc w0)
        as (k & _ & Hw & Hr);
      destruct (synthesize_def _ _ n i chunks voice_model acc w0) as [w1 r]
  end.
  cbn [fst snd] in Hw, Hr. subst w1. run.
  assert (chunks ≠ [] → 0 < k)%nat as Hpos.
  { intros Hne. destruct r as [audio|e].
    - destruct Hr as (-> & _). destruct chunks; [done|simpl; lia].
    - by destruct Hr as (c & _ & ? & _). }
  destruct r as [audio|e]; run.
  2:{ exists k, [showerror (lit "Error") e; status_config GenerationError (lit "red")], fs.
      split_and!; [same_trace|done|done|done]. }
  destruct (np_concatenate audio) as [final_audio|e]; run.
  2:{ exists k, [showerror (lit "Error") e; status_config GenerationError (lit "red")], fs.
      split_and!; [same_trace|done|done|done]. }
  destruct asksaveasfilename as [|c filename]; run.
  { exists k, [asksaveasfilename_call; status_config Canceled (lit "gray")], fs.
    split_and!; [same_trace|done|done|done]. }
  destruct (write_error (c :: filename)) as [e|]; run.
  - exists k, [asksaveasfilename_call;
               write_call (c :: filename) SAMPLE_RATE final_audio;
               showerror (lit "Error") e;
               status_config GenerationError (lit "red")], fs.
    split_and!; [same_trace|done|done|done].
  - exists k, [asksaveasfilename_call;
               write_call (c :: filename) SAMPLE_RATE final_audio;
               status_config (Saved (c :: filename)) (lit "green")],
      (<[c :: filename := (SAMPLE_RATE, final_audio)]> fs).
    split_and!; [same_trace|done|done|].
    intros path Hpath. by rewrite lookup_insert_ne.
Qed.

(** Every run of the worker of [preview_voice]. *)
Lemma worker_preview_run (selected_name : str) (voice_model : json) (w : world) :
  ∃ t_end fs',
    worker_preview selected_name voice_model w
    = (World (text_box w) (voice_choice w)
         (trace w
          ++ [progress_pack; progress_start;
              status_config (Previewing selected_name) (lit "orange");
              generate_audio_call (lit "Hello, this is a quick voice preview.")
                voice_model]
          ++ t_end ++ [progress_stop; progress_pack_forget]) fs',
       Ok ())
    ∧ (∀ path, path ≠ lit "preview_sample.wav" → fs' !! path = files w !! path).
Proof.
  destruct w as [tb vc tr fs]. unfold worker_preview_def. run.
  destruct (generate_audio _ voice_model) as [audio_array|e]; run.
  2:{ exists [showerror (lit "Error") e; status_config PreviewError (lit "red")], fs.
      split; [same_trace|done]. }
  destruct (write_error _) as [e|]; run.
  { exists [write_call (lit "preview_sample.wav") SAMPLE_RATE audio_array;
            showerror (lit "Error") e; status_config PreviewError (lit "red")], fs.
    split; [same_trace|done]. }
  rewrite lookup_insert_eq. run.
  destruct play_error as [e|]; run.
  - exists [write_call (lit "preview_sample.wav") SAMPLE_RATE audio_array;
            play_call SAMPLE_RATE audio_array;
            showerror (lit "Error") e; status_config PreviewError (lit "red")],
      (<[lit "preview_sample.wav" := (SAMPLE_RATE, audio_array)]> fs).
    split; [same_trace|]. intros path Hpath. by rewrite lookup_insert_ne.
  - exists [write_call (lit "preview_sample.wav") SAMPLE_RATE audio_array;
            play_call SAMPLE_RATE audio_array;
            status_config (PreviewFinished selected_name) (lit "green")],
      (<[lit "preview_sample.wav" := (SAMPLE_RATE, audio_array)]> fs).
    split; [same_trace|]. intros path Hpath. by rewrite lookup_insert_ne.
Qed.

(** X14.  However a run of either worker ends (a synthesis that raises, a
    cancelled dialog, a write or a playback that raises, or success), the
    worker raises nothing, the progress bar is shown and started before
    everything else and it is stopped and hidden after everything else. *)
Theorem progress_bar_is_always_cleared (text_prompt selected_name : str)
    (voice_model : json) (w : world) :
  (∃ w' t, worker text_prompt voice_model w = (w', Ok ())
     ∧ trace w' = trace w ++ [progress_pack; progress_start] ++ t
                    ++ [progress_stop; progress_pack_forget])
  ∧ (∃ w' t, worker_preview selected_name voice_model w = (w', Ok ())
       ∧ trace w' = trace w ++ [progress_pack; progress_start] ++ t
                      ++ [progress_stop; progress_pack_forget]).
Proof.
  split.
  - destruct (wrap_250_ok text_prompt) as [chunks Hwrap].
    destruct (worker_run text_prompt voice_model w chunks Hwrap)
      as (k & t_end & fs' & -> & _).
    eexists _, (status_config Generating (lit "orange")
                :: chunk_events (length chunks) 0 (take k chunks) voice_model
                ++ t_end).
    split; [reflexivity|]. cbn [trace app]. by rewrite <- app_assoc.
  - destruct (worker_preview_run selected_name voice_model w) as (t_end & fs' & -> & _).
    eexists _, (status_config (Previewing selected_name) (lit "orange")
                :: generate_audio_call (lit "Hello, this is a quick voice preview.")
                     voice_model
                :: t_end).
    split; [reflexivity|]. by cbn [trace app].
Qed.

(** X15.  A generation changes no file but the one the dialog has named,
    and a preview changes no file but [preview_sample.wav]. *)
Theorem other_files_are_untouched (text_prompt selected_name : str)
    (voice_model : json) (w : world) (path : str) :
  (path ≠ asksaveasfilename →
   files (worker text_prompt voice_model w).1 !! path = files w !! path)
  ∧ (path ≠ lit "preview_sample.wav" →
     files (worker_preview selected_name voice_model w).1 !! path = files w !! path).
Proof.
  split; intros Hpath.
  - destruct (wrap_250_ok text_prompt) as [chunks Hwrap].
    destruct (worker_run text_prompt voice_model w chunks Hwrap)
      as (k & t_end & fs' & -> & _ & _ & Hfiles).
    by apply Hfiles.
  - destruct (worker_preview_run selected_name voice_model w) as (t_end & fs' & -> & Hfiles).
    by apply Hfiles.
Qed.

(** X16.  In every run of the worker of [generate_voice] the synthesis
    calls are the chunks of the text from the first one on, in their order,
    each once, all with the voice of the run; a run over at least one chunk
    calls the model at least once. *)
Theorem chunks_are_synthesized_in_order (text_prompt : str) (voice_model : json)
    (w : world) (chunks : list str) :
  textwrap.wrap text_prompt 250 = Ok chunks →
  ∃ w' t k,
    worker text_prompt voice_model w = (w', Ok ())
    ∧ trace w' = trace w ++ t
    ∧ synthesis_calls t = (λ c, (c, voice_model)) <$> take k chunks
    ∧ (chunks ≠ [] → 0 < k)%nat.
Proof.
  intros Hwrap.
  destruct (worker_run text_prompt voice_model w chunks Hwrap)
    as (k & t_end & fs' & -> & Hend & Hpos & _).
  eexists _, _, k. split_and!; [reflexivity|reflexivity| |done].
  rewrite !synthesis_calls_app, synthesis_calls_chunk_events, Hend.
  simpl. by rewrite app_nil_r.
Qed.

Lemma find_local_name (v : voice) (n : str) (rest : list voice) :
  v ∈ LOCAL_VOICE_OPTIONS →
  voice_name v = JStr n →
  List.find (λ u, eq_str (voice_name u) n) (LOCAL_VOICE_OPTIONS ++ rest) = Some v.
Proof.
  intros Hv Hn. unfold LOCAL_VOICE_OPTIONS in *.
  repeat (apply elem_of_cons in Hv as [->|Hv]);
    try (injection Hn as <-; vm_compute; reflexivity).
  by apply elem_of_nil in Hv.
Qed.

(** X17.  A remote entry cannot take over the name of a local voice: in
    every catalog the resolver returns, the name of a local voice selects
    the id of that local voice, in the generation as in the preview,
    whatever the remote entries are called. *)
Theorem local_name_selects_local_voice (get : result response) (cat : list voice)
    (v : voice) (w : world) :
  (get_voice_catalog get).2 = Ok cat →
  v ∈ LOCAL_VOICE_OPTIONS →
  voice_name v = JStr (voice_choice w) →
  preview_voice cat w
  = worker_preview (voice_choice w) (voice_id v) (log [thread_start] w)
  ∧ (strip (text_box w) ≠ [] →
     generate_voice cat w
     = worker (strip (text_box w)) (voice_id v) (log [thread_start] w)).
Proof.
  intros (rest & -> & _)%get_voice_catalog_ok Hv Hname.
  pose proof (find_local_name v (voice_choice w) rest Hv Hname) as Hfind.
  assert (∃ d, first_entry (LOCAL_VOICE_OPTIONS ++ rest) = Ok d) as [d Hd]
    by by eexists.
  revert Hfind Hd. generalize (LOCAL_VOICE_OPTIONS ++ rest). intros cat Hfind Hd.
  destruct w as [tb vc tr fs]. cbn [text_box voice_choice] in *.
  split.
  - unfold preview_voice_def. run. rewrite Hd. run. unfold next.
    by rewrite Hfind.
  - intros Htext. unfold generate_voice_def. cbn [text_box voice_choice].
    destruct (strip tb) as [|c s]; [done|].
    run. rewrite Hd. run. unfold next. by rewrite Hfind.
Qed.

End main_ui_further.

Lemma generation_saves_joined_audio_witness :
  let w : @world nat := World (lit "  hello world ") (lit "Deep Male (English)") [] ∅ in
  let voice_model := JStr (lit "v2/en_speaker_0") in
  let chunks := [lit "hello world"] in
  let audios := [[11%nat; 11%nat]] in
  worker 24000 (λ c _, Ok [length c; length c]) (lit "out.wav") (λ _, None)
    (lit "hello world") voice_model w
  = (World (text_box w) (voice_choice w)
       (trace w
        ++ [progress_pack; progress_start; status_config Generating (lit "orange")]
        ++ chunk_events (length chunks) 0 chunks voice_model
        ++ [asksaveasfilename_call;
            write_call (lit "out.wav") 24000 (concat audios);
            status_config (Saved (lit "out.wav")) (lit "green");
            progress_stop; progress_pack_forget])
       (<[lit "out.wav" := (24000, concat audios)]> (files w)),
     Ok ()).
Proof.
  intros w voice_model chunks audios.
  apply (generation_saves_joined_audio 24000 (λ c _, Ok [length c; length c])
           (lit "out.wav") (λ _, None) (lit "hello world") voice_model w chunks audios).
  - vm_compute. reflexivity.
  - apply Exists_cons_hd. vm_compute. tauto.
  - repeat constructor.
  - vm_compute. discriminate.
  - reflexivity.
Defined.

Lemma cancelled_dialog_writes_nothing_witness :
  let w : @world nat := World (lit "hello world") (lit "Deep Male (English)") [] ∅ in
  let voice_model := JStr (lit "v2/en_speaker_0") in
  let chunks := [lit "hello world"] in
  worker 24000 (λ c _, Ok [length c; length c]) [] (λ _, None)
    (lit "hello world") voice_model w
  = (log ([progress_pack; progress_start; status_config Generating (lit "orange")]
          ++ chunk_events (length chunks) 0 chunks voice_model
          ++ [asksaveasfilename_call; status_config Canceled (lit "gray");
              progress_stop; progress_pack_forget]) w,
     Ok ()).
Proof.
  intros w voice_model chunks.
  apply (cancelled_dialog_writes_nothing 24000 (λ c _, Ok [length c; length c])
           [] (λ _, None) (lit "hello world") voice_model w chunks
           [[11%nat; 11%nat]]).
  - vm_compute. reflexivity.
  - apply Exists_cons_hd. vm_compute. tauto.
  - repeat constructor.
  - reflexivity.
Defined.


Lemma other_files_are_untouched_witness :
  let w : @world nat :=
    World (lit "hello") (lit "Deep Male (English)") []
      {[ lit "old.wav" := (8000, [7%nat]) ]} in
  let voice_model := JStr (lit "v2/en_speaker_0") in
  let path := lit "old.wav" in
  path ≠ lit "out.wav"
  ∧ path ≠ lit "preview_sample.wav"
  ∧ files (worker 24000 (λ _ _, Ok [1%nat]) (lit "out.wav") (λ _, None)
             (lit "hello") voice_model w).1 !! path = files w !! path
  ∧ files (worker_preview 24000 (λ _ _, Ok [1%nat]) (λ _, None) None
             (lit "Deep Male (English)") voice_model w).1 !! path = files w !! path.
Proof.
  intros w voice_model path.
  assert (path ≠ lit "out.wav") as H1 by (vm_compute; discriminate).
  assert (path ≠ lit "preview_sample.wav") as H2 by (vm_compute; discriminate).
  destruct (other_files_are_untouched 24000 (λ _ _, Ok [1%nat]) (lit "out.wav")
              (λ _, None) None (lit "hello") (lit "Deep Male (English)")
              voice_model w path) as [Hg Hp].
  split_and!; [exact H1|exact H2|exact (Hg H1)|exact (Hp H2)].
Defined.

Lemma chunks_are_synthesized_in_order_witness :
  let w : @world nat := World (lit "hello") (lit "Deep Male (English)") [] ∅ in
  let voice_model := JStr (lit "v2/en_speaker_0") in
  let chunks := [lit "hello"] in
  ∃ w' t k,
    worker 24000 (λ _ _, Ok [1%nat]) (lit "out.wav") (λ _, None)
      (lit "hello") voice_model w = (w', Ok ())
    ∧ trace w' = trace w ++ t
    ∧ synthesis_calls t = (λ c, (c, voice_model)) <$> take k chunks
    ∧ (chunks ≠ [] → 0 < k)%nat.
Proof.
  intros w voice_model chunks.
  apply (chunks_are_synthesized_in_order 24000 (λ _ _, Ok [1%nat]) (lit "out.wav")
           (λ _, None) (lit "hello") voice_model w chunks).
  vm_compute. reflexivity.
Defined.

Lemma local_name_selects_local_voice_witness :
  let get := payload (JArr [remote_entry "community/deep" "Deep Male (English)"]) in
  let cat := LOCAL_VOICE_OPTIONS
             ++ [local_voice "community/deep" "Deep Male (English)"] in
  let v := local_voice "v2/en_speaker_0" "Deep Male (English)" in
  let w : @world nat := World (lit "hello") (lit "Deep Male (English)") [] ∅ in
  (get_voice_catalog get).2 = Ok cat
  ∧ preview_voice 24000 (λ _ _, Ok [1%nat]) (λ _, None) None cat w
    = worker_preview 24000 (λ _ _, Ok [1%nat]) (λ _, None) None
        (voice_choice w) (voice_id v) (log [thread_start] w)
  ∧ (strip (text_box w) ≠ [] →
     generate_voice 24000 (λ _ _, Ok [1%nat]) (lit "out.wav") (λ _, None) cat w
     = worker 24000 (λ _ _, Ok [1%nat]) (lit "out.wav") (λ _, None)
         (strip (text_box w)) (voice_id v) (log [thread_start] w)).
Proof.
  intros get cat v w.
  assert ((get_voice_catalog get).2 = Ok cat) as Hcat by (vm_compute; reflexivity).
  split; [exact Hcat|].
  apply (local_name_selects_local_voice 24000 (λ _ _, Ok [1%nat]) (lit "out.wav")
           (λ _, None) None get cat v w Hcat).
  - by left.
  - reflexivity.
Defined.
